(** * Virtual Food Photographer: the generation-and-edit session model

    A shallow embedding of [src/types.ts], [src/App.tsx],
    [src/components/ImageEditorModal.tsx] and of the Gemini service module
    (the part of the source that defines [generateFoodImage] and
    [editFoodImage]), with the properties of the specification stated and
    proved over it.

    - JavaScript strings are sequences of UTF-16 code units: [list N].
    - [undefined] / [null] are [None].
    - A promise that settles is a [settled] value: fulfilled with a value or
      rejected with the [message] of the thrown [Error].
    - The remote model service and [uuidv4] are parameters of the model. *)

From Stdlib Require Import NArith Ascii String.
From stdpp Require Import base tactics option list.

Set Default Proof Using "Type".

(* ===================================================================== *)
(** * JavaScript strings *)
(* ===================================================================== *)

Module JS.

(** A string is the list of its UTF-16 code units. *)
Abbreviation jsstring := (list N).

(** A string literal of the source, as code units. *)
Definition lit (s : string) : jsstring :=
(λ a, N_of_ascii a) <$> list_ascii_of_string s.

(** [!s] for a string: only the empty string is falsy. *)
Definition truthy (s : jsstring) : bool :=
match s with [] => false | _ :: _ => true end.

(** ECMAScript [WhiteSpace]: TAB, VT, FF, ZWNBSP and the Unicode
  Space_Separator category. *)
Definition isWhiteSpace (c : N) : bool :=
(c =? 0x9)%N || (c =? 0xB)%N || (c =? 0xC)%N || (c =? 0xFEFF)%N ||
(c =? 0x20)%N || (c =? 0xA0)%N || (c =? 0x1680)%N ||
((0x2000 <=? c)%N && (c <=? 0x200A)%N) ||
(c =? 0x202F)%N || (c =? 0x205F)%N || (c =? 0x3000)%N.

(** ECMAScript [LineTerminator]: LF, CR, LS, PS. *)
Definition isLineTerminator (c : N) : bool :=
(c =? 0xA)%N || (c =? 0xD)%N || (c =? 0x2028)%N || (c =? 0x2029)%N.

(** The code units [String.prototype.trim] strips. *)
Definition isTrimmable (c : N) : bool := isWhiteSpace c || isLineTerminator c.

Fixpoint dropWhile {A} (p : A → bool) (l : list A) : list A :=
match l with
| [] => []
| x :: l' => if p x then dropWhile p l' else l
end.

Definition trimStart (s : jsstring) : jsstring := dropWhile isTrimmable s.
Definition trimEnd (s : jsstring) : jsstring :=
reverse (dropWhile isTrimmable (reverse s)).

(** [s.trim()] *)
Definition trim (s : jsstring) : jsstring := trimEnd (trimStart s).

(** [s.split(sep)] for a separator of one code unit (every separator of
  the source is: ['\n'], [','], [';'], [':']).  The result is never
  empty: [''.split(sep)] is [['']]. *)
Fixpoint split (sep : N) (s : jsstring) : list jsstring :=
match s with
| [] => [[]]
| c :: s' =>
    if (c =? sep)%N then [] :: split sep s'
    else match split sep s' with
         | [] => [[c]]
         | piece :: pieces => (c :: piece) :: pieces
         end
end.

Definition LF : N := 0xA.
Definition comma : N := 0x2C.
Definition colon : N := 0x3A.
Definition semicolon : N := 0x3B.

(** The code unit does not occur in the string. *)
Definition lacks (c : N) (s : jsstring) : bool := forallb (λ d, negb (d =? c)%N) s.

End JS.
Import JS.

Arguments lit : simpl never.

(* ===================================================================== *)
(** * src/types.ts *)
(* ===================================================================== *)

Inductive ImageStyle := RUSTIC_DARK | BRIGHT_MODERN | SOCIAL_MEDIA.

(** An element of [editHistory]. *)
Module Edit.
Record Entry := { prompt : jsstring; imageUrl : jsstring }.
End Edit.

Record GeneratedImage := {
  id : jsstring;
  dishName : jsstring;
  imageUrl : jsstring;
  originalPrompt : jsstring;
  editHistory : list Edit.Entry;
}.

(* ===================================================================== *)
(** * Data URIs *)
(* ===================================================================== *)

(** The template literal [`data:${mimeType};base64,${data}`] of
    [handleEdit]; [handleGenerateImages] uses it with the media type
    written out as [image/jpeg]. *)
Definition encodeToDataUri (data mimeType : jsstring) : jsstring :=
  lit "data:" ++ mimeType ++ lit ";base64," ++ data.

(** [url.split(',')[1]] *)
Definition base64DataOf (url : jsstring) : option jsstring :=
  split comma url !! 1.

(** [url.split(';')[0].split(':')[1]] *)
Definition mimeTypeOf (url : jsstring) : option jsstring :=
  split colon (default [] (split semicolon url !! 0)) !! 1.

(** [${v}] in a template literal, for a value that may be [undefined]. *)
Definition inTemplate (v : option jsstring) : jsstring :=
  default (lit "undefined") v.

(** [!v] for a value that may be [undefined]. *)
Definition falsy (v : option jsstring) : bool :=
  match v with None => true | Some s => negb (truthy s) end.

(** The first lines of the [try] block of [handleEdit]: both parts are
    extracted, and a missing or empty one throws
    ['Could not extract image data for editing.'] ([None] here). *)
Definition decodeFromDataUri (url : jsstring) : option (jsstring * jsstring) :=
  match base64DataOf url, mimeTypeOf url with
  | Some base64Data, Some mimeType =>
      if truthy base64Data && truthy mimeType then Some (base64Data, mimeType)
      else None
  | _, _ => None
  end.

(** What the round trip needs of a payload and of a media type: not empty,
    and free of the separators the decoder splits on. *)
Definition validPayload (p : jsstring) : bool := truthy p && lacks comma p.
Definition validMediaType (m : jsstring) : bool :=
  truthy m && lacks comma m && lacks semicolon m && lacks colon m.

(* ===================================================================== *)
(** * The model service (the [@google/genai] client) *)
(* ===================================================================== *)

(** How an awaited promise settles: with a value, or by throwing an [Error]
    with a [message]. *)
Inductive settled (A : Type) :=
  | Fulfilled (value : A)
  | Rejected (message : jsstring).
Arguments Fulfilled {A} value.
Arguments Rejected {A} message.

Module GenAI.

Inductive AspectRatio := R1x1 | R3x4 | R4x3 | R9x16 | R16x9.

(** The argument of [ai.models.generateImages]. *)
Record GenerateImagesRequest := {
  gi_model : jsstring;
  gi_prompt : jsstring;
  numberOfImages : nat;
  outputMimeType : jsstring;
  aspectRatio : AspectRatio;
}.

(** Its response.  Every level may be missing: the list
    [generatedImages], the [image] of an entry, the [imageBytes] of an
    image. *)
Record Image := { imageBytes : option jsstring }.
Record GeneratedImage := { image : option Image }.
Record GenerateImagesResponse := {
  generatedImages : option (list GeneratedImage);
}.

Record Blob := { data : option jsstring; mimeType : option jsstring }.
Record Part := { inlineData : option Blob; text : option jsstring }.
Record Content := { parts : option (list Part) }.
Record Candidate := { content : option Content }.

Inductive Modality := IMAGE | TEXT.

(** The argument of [ai.models.generateContent]. *)
Record GenerateContentRequest := {
  gc_model : jsstring;
  contents : Content;
  responseModalities : list Modality;
}.

Record GenerateContentResponse := {
  candidates : option (list Candidate);
}.

End GenAI.

(* ===================================================================== *)
(** * Component state *)
(* ===================================================================== *)

(** The [useState] cells of [App]. *)
Module App.
Record State := {
  menuText : jsstring;
  selectedStyle : ImageStyle;
  generatedImages : list GeneratedImage;
  loading : bool;
  error : option jsstring;
  editingImage : option GeneratedImage;
}.
End App.

(** The [useState] cells of [ImageEditorModal]. *)
Module Modal.
Record State := {
  editPrompt : jsstring;
  editingImage : bool;
  error : option jsstring;
  currentEditedImageUrl : jsstring;
}.
End Modal.

(** What lies outside the components: how many times [uuidv4] was called,
    and the requests sent to the two model endpoints, oldest first. *)
Record World := {
  uuidCalls : nat;
  imagenLog : list GenAI.GenerateImagesRequest;
  geminiLog : list GenAI.GenerateContentRequest;
}.

(** [s.startsWith(pre)] *)
Fixpoint startsWith (pre s : jsstring) : bool :=
  match pre, s with
  | [], _ => true
  | _ :: _, [] => false
  | a :: pre', b :: s' => (a =? b)%N && startsWith pre' s'
  end.

Definition dquote : N := 0x22.

(* ===================================================================== *)
(** * Sample data *)
(* ===================================================================== *)

(** Concrete inputs on which the results below are run. *)
Module Sample.

Definition key : option jsstring := Some (lit "AIza-sample-key").

(** An identifier source that never repeats. *)
Definition uuid (k : nat) : jsstring := lit "img-" ++ [N.of_nat k].

Definition world0 : World :=
  {| uuidCalls := 0; imagenLog := []; geminiLog := [] |}.

(** Three dishes, with white space around them and a blank line. *)
Definition menu : jsstring :=
  lit "Soup" ++ [LF] ++ lit "  Salad " ++ [LF] ++ lit "   " ++ [LF] ++ lit "Cake".

Definition blankMenu : jsstring := lit "  " ++ [LF] ++ lit " ".

Definition served (bytes : jsstring) : settled GenAI.GenerateImagesResponse :=
  Fulfilled
    {| GenAI.generatedImages :=
         Some [ {| GenAI.image := Some {| GenAI.imageBytes := Some bytes |} |} ] |}.

(** What V8 says when [imageBytes] is read from [undefined]. *)
Definition typeError : jsstring :=
  lit "Cannot read properties of undefined (reading 'imageBytes')".

(** The call for the second dish fails, the others succeed. *)
Definition secondFails (i : nat) : settled GenAI.GenerateImagesResponse :=
  match i with
  | 0 => served (lit "U291cA==")
  | 1 => Rejected (lit "quota exceeded")
  | _ => served (lit "Q2FrZQ==")
  end.

(** Every call fails. *)
Definition allFail (i : nat) : settled GenAI.GenerateImagesResponse :=
  Rejected (lit "quota exceeded").

Definition start (menuText : jsstring) : App.State :=
  {| App.menuText := menuText;
     App.selectedStyle := RUSTIC_DARK;
     App.generatedImages := [];
     App.loading := false;
     App.error := None;
     App.editingImage := None |}.

Definition soup : GeneratedImage :=
  {| id := uuid 0;
     dishName := lit "Soup";
     imageUrl := lit "data:image/jpeg;base64,U291cA==";
     originalPrompt := lit "Soup";
     editHistory := [] |}.

Definition editor (editPrompt : jsstring) : Modal.State :=
  {| Modal.editPrompt := editPrompt;
     Modal.editingImage := false;
     Modal.error := None;
     Modal.currentEditedImageUrl := imageUrl soup |}.

(** The edit model answers with one PNG image part. *)
Definition edited (data : jsstring) : settled GenAI.GenerateContentResponse :=
  Fulfilled
    {| GenAI.candidates := Some
         [ {| GenAI.content := Some
                {| GenAI.parts := Some
                     [ {| GenAI.inlineData :=
                            Some {| GenAI.data := Some data;
                                    GenAI.mimeType := Some (lit "image/png") |};
                          GenAI.text := None |} ] |} |} ] |}.

(** The edit model answers with text only. *)
Definition noImage : settled GenAI.GenerateContentResponse :=
  Fulfilled
    {| GenAI.candidates := Some
         [ {| GenAI.content := Some
                {| GenAI.parts := Some
                     [ {| GenAI.inlineData := None;
                          GenAI.text := Some (lit "I cannot edit this.") |} ] |} |} ] |}.

Definition cake : GeneratedImage :=
  {| id := uuid 1;
     dishName := lit "Cake";
     imageUrl := lit "data:image/jpeg;base64,Q2FrZQ==";
     originalPrompt := lit "Cake";
     editHistory := [] |}.

(** The soup after one edit. *)
Definition brighterSoup : GeneratedImage :=
  {| id := uuid 0;
     dishName := lit "Soup";
     imageUrl := lit "data:image/jpeg;base64,QnJpZ2h0";
     originalPrompt := lit "Soup";
     editHistory :=
       [ {| Edit.prompt := lit "make it brighter";
            Edit.imageUrl := lit "data:image/jpeg;base64,QnJpZ2h0" |} ] |}.

(** An image that is in no session. *)
Definition stray : GeneratedImage :=
  {| id := uuid 7;
     dishName := lit "Tart";
     imageUrl := lit "data:image/jpeg;base64,VGFydA==";
     originalPrompt := lit "Tart";
     editHistory := [] |}.

(** The page with the soup and the cake in the session. *)
Definition shelf : App.State :=
  {| App.menuText := menu;
     App.selectedStyle := RUSTIC_DARK;
     App.generatedImages := [soup; cake];
     App.loading := false;
     App.error := None;
     App.editingImage := Some soup |}.

(** A modal showing a payload that is no data URI. *)
Definition brokenEditor : Modal.State :=
  {| Modal.editPrompt := lit "add steam";
     Modal.editingImage := false;
     Modal.error := None;
     Modal.currentEditedImageUrl := lit "https://example.test/soup.jpg" |}.

End Sample.

(* ===================================================================== *)
(** * The program *)
(* ===================================================================== *)

Section Program.

(** [process.env.API_KEY], read once when the service module loads. *)
Variable API_KEY : option jsstring.

(** The message of the [TypeError] the engine throws when [imageBytes]
    is read from an [image] that is [undefined]; it differs from one
    engine to the next. *)
Variable typeErrorMessage : jsstring.

(** [uuidv4]: the identifier returned by its [k]-th call. *)
Variable uuidv4 : nat → jsstring.

(** What the [uuid] package is relied on for: no identifier is returned
    twice.  Only the results on identifiers assume it. *)
Hypothesis uuidv4_unique : ∀ j k, uuidv4 j = uuidv4 k → j = k.

(** ** The service module *)

(** [generateFoodImage(prompt, style)].  [remote] is how the call to
    [ai.models.generateImages] settles.  The result is the requests sent
    and how the returned promise settles: fulfilled with
    [response.generatedImages[0].image.imageBytes], which is [undefined]
    when the image has no bytes, or rejected; reading [imageBytes] from a
    missing [image] throws inside [try] and is rejected like any other
    error. *)
Definition generateFoodImage (prompt : jsstring) (style : ImageStyle)
    (remote : settled GenAI.GenerateImagesResponse)
    : list GenAI.GenerateImagesRequest * settled (option jsstring) :=
  if falsy API_KEY then
    ([], Rejected (lit "API Key is missing. Cannot generate image."))
  else
    let '(fullPrompt, aspectRatio) :=
      match style with
      | RUSTIC_DARK =>
          (lit "High-end, professional food photography, rustic, dark lighting, moody, close-up, " ++ prompt,
           GenAI.R4x3)
      | BRIGHT_MODERN =>
          (lit "High-end, professional food photography, bright, modern, clean background, vibrant colors, " ++ prompt,
           GenAI.R16x9)
      | SOCIAL_MEDIA =>
          (lit "High-end, professional food photography, top-down view, social media ready, bright, clean, well-lit, " ++ prompt,
           GenAI.R1x1)
      end in
    let request :=
      {| GenAI.gi_model := lit "imagen-4.0-generate-001";
         GenAI.gi_prompt := fullPrompt;
         GenAI.numberOfImages := 1;
         GenAI.outputMimeType := lit "image/jpeg";
         GenAI.aspectRatio := aspectRatio |} in
    ([request],
     match remote with
     | Fulfilled response =>
         match GenAI.generatedImages response with
         | Some (first :: _) =>
             match GenAI.image first with
             | Some image => Fulfilled (GenAI.imageBytes image)
             | None => Rejected (lit "Failed to generate image: " ++ typeErrorMessage)
             end
         | _ => Rejected (lit "Failed to generate image: " ++ lit "No image generated.")
         end
     | Rejected message => Rejected (lit "Failed to generate image: " ++ message)
     end).

(** [part.inlineData?.mimeType?.startsWith('image/')] *)
Definition isImagePart (part : GenAI.Part) : bool :=
  match GenAI.inlineData part ≫= GenAI.mimeType with
  | Some mimeType => startsWith (lit "image/") mimeType
  | None => false
  end.

(** [response.candidates?.[0]?.content?.parts?.find(...)] *)
Definition editedImagePart (response : GenAI.GenerateContentResponse)
    : option GenAI.Part :=
  candidate ← GenAI.candidates response ≫= (λ cs : list GenAI.Candidate, cs !! 0);
  parts ← GenAI.content candidate ≫= GenAI.parts;
  List.find isImagePart parts.

(** [editFoodImage(base64ImageData, mimeType, editPrompt)].  [remote] is
    how the call to [ai.models.generateContent] settles. *)
Definition editFoodImage (base64ImageData mimeType editPrompt : jsstring)
    (remote : settled GenAI.GenerateContentResponse)
    : list GenAI.GenerateContentRequest * settled jsstring :=
  if falsy API_KEY then
    ([], Rejected (lit "API Key is missing. Cannot edit image."))
  else
    let request :=
      {| GenAI.gc_model := lit "gemini-2.5-flash-image";
         GenAI.contents :=
           {| GenAI.parts := Some
                [ {| GenAI.inlineData :=
                       Some {| GenAI.data := Some base64ImageData;
                               GenAI.mimeType := Some mimeType |};
                     GenAI.text := None |};
                  {| GenAI.inlineData := None;
                     GenAI.text := Some editPrompt |} ] |};
         GenAI.responseModalities := [GenAI.IMAGE] |} in
    ([request],
     match remote with
     | Fulfilled response =>
         match (editedImagePart response ≫= GenAI.inlineData) ≫= GenAI.data with
         | Some ((_ :: _) as data) => Fulfilled data
         | _ => Rejected (lit "Failed to edit image: " ++ lit "No edited image returned by the model.")
         end
     | Rejected message => Rejected (lit "Failed to edit image: " ++ message)
     end).

(** ** src/App.tsx: [handleGenerateImages] *)

(** [menuText.split('\n').map((line) => line.trim()).filter(Boolean)] *)
Definition dishesOf (menuText : jsstring) : list jsstring :=
  List.filter truthy (trim <$> split LF menuText).

(** The batch while its calls are in flight: [slots] holds, per dish, what
    its [async] callback has returned so far ([None]: not yet settled;
    [Some None]: returned [null]); [b_error] is the [error] cell. *)
Record Batch := {
  slots : list (option (option GeneratedImage));
  b_error : option jsstring;
  b_uuidCalls : nat;
}.

(** The rest of the [async] callback of [dishes.map], run when the call
    for the [i]-th dish settles: the lines after [await] in [try], or the
    [catch] block. *)
Definition settleDish
    (promises : list (jsstring * settled (option jsstring)))
    (b : Batch) (i : nat) : Batch :=
  match promises !! i with
  | None => b
  | Some (dish, Fulfilled base64ImageBytes) =>
      let imageUrl := lit "data:image/jpeg;base64," ++ inTemplate base64ImageBytes in
      {| slots :=
           <[i := Some (Some {| id := uuidv4 (b_uuidCalls b);
                                dishName := dish;
                                imageUrl := imageUrl;
                                originalPrompt := dish;
                                editHistory := [] |})]> (slots b);
         b_error := b_error b;
         b_uuidCalls := S (b_uuidCalls b) |}
  | Some (dish, Rejected _) =>
      {| slots := <[i := Some None]> (slots b);
         b_error :=
           Some (lit "Failed to generate image for " ++ [dquote] ++ dish
                   ++ [dquote] ++ lit ". Please try again.");
         b_uuidCalls := b_uuidCalls b |}
  end.

(** [handleGenerateImages].  [imagen i] is how the model call made for
    the [i]-th dish settles, and [order] lists the dishes in the order in
    which their calls settle.  [await Promise.all] resumes only once every
    callback has returned; until then the first three [set...] calls and
    those of the callbacks are all that happened. *)
Definition handleGenerateImages
    (imagen : nat → settled GenAI.GenerateImagesResponse)
    (order : list nat) (w : World) (st : App.State) : World * App.State :=
  if negb (truthy (trim (App.menuText st))) then
    (w, {| App.menuText := App.menuText st;
           App.selectedStyle := App.selectedStyle st;
           App.generatedImages := App.generatedImages st;
           App.loading := App.loading st;
           App.error := Some (lit "Please enter your menu items.");
           App.editingImage := App.editingImage st |})
  else
    let dishes := dishesOf (App.menuText st) in
    let calls :=
      imap (λ i dish, (dish, generateFoodImage dish (App.selectedStyle st) (imagen i)))
           dishes in
    let promises := (λ c, (c.1, c.2.2)) <$> calls in
    let b := foldl (settleDish promises)
               {| slots := replicate (length dishes) None;
                  b_error := None;
                  b_uuidCalls := uuidCalls w |} order in
    let w' := {| uuidCalls := b_uuidCalls b;
                 imagenLog := imagenLog w ++ concat ((λ c, c.2.1) <$> calls);
                 geminiLog := geminiLog w |} in
    match mapM (λ slot, slot) (slots b) with
    | Some results =>
        let newImages := omap (λ result, result) results in
        (w', {| App.menuText := App.menuText st;
                App.selectedStyle := App.selectedStyle st;
                App.generatedImages := newImages;
                App.loading := false;
                App.error := b_error b;
                App.editingImage := App.editingImage st |})
    | None =>
        (w', {| App.menuText := App.menuText st;
                App.selectedStyle := App.selectedStyle st;
                App.generatedImages := [];
                App.loading := true;
                App.error := b_error b;
                App.editingImage := App.editingImage st |})
    end.

(** [handleEditImage] *)
Definition handleEditImage (image : GeneratedImage) (st : App.State) : App.State :=
  {| App.menuText := App.menuText st;
     App.selectedStyle := App.selectedStyle st;
     App.generatedImages := App.generatedImages st;
     App.loading := App.loading st;
     App.error := App.error st;
     App.editingImage := Some image |}.

(** [handleImageEdited] *)
Definition handleImageEdited (updatedImage : GeneratedImage) (st : App.State)
    : App.State :=
  {| App.menuText := App.menuText st;
     App.selectedStyle := App.selectedStyle st;
     App.generatedImages :=
       (λ img, if decide (id img = id updatedImage) then updatedImage else img)
         <$> App.generatedImages st;
     App.loading := App.loading st;
     App.error := App.error st;
     App.editingImage := Some updatedImage |}.

(** [closeEditorModal] *)
Definition closeEditorModal (st : App.State) : App.State :=
  {| App.menuText := App.menuText st;
     App.selectedStyle := App.selectedStyle st;
     App.generatedImages := App.generatedImages st;
     App.loading := App.loading st;
     App.error := App.error st;
     App.editingImage := None |}.

(** ** src/components/ImageEditorModal.tsx: [handleEdit] *)

(** [handleEdit] of a modal rendered with the prop [image].  [gemini] is
    how the call to [ai.models.generateContent] settles.  The result is
    the requests sent, the state of the modal once the handler has run to
    its end, and the argument of the call to [onImageEdited], if it is
    called. *)
Definition handleEdit (image : GeneratedImage)
    (gemini : settled GenAI.GenerateContentResponse) (m : Modal.State)
    : list GenAI.GenerateContentRequest * Modal.State * option GeneratedImage :=
  if negb (truthy (trim (Modal.editPrompt m))) then
    ([], {| Modal.editPrompt := Modal.editPrompt m;
            Modal.editingImage := Modal.editingImage m;
            Modal.error := Some (lit "Please enter an edit prompt.");
            Modal.currentEditedImageUrl := Modal.currentEditedImageUrl m |},
     None)
  else
    let failed (log : list GenAI.GenerateContentRequest) (message : jsstring) :=
      (log, {| Modal.editPrompt := Modal.editPrompt m;
               Modal.editingImage := false;
               Modal.error := Some (lit "Failed to edit image: " ++ message);
               Modal.currentEditedImageUrl := Modal.currentEditedImageUrl m |},
       None) in
    match decodeFromDataUri (Modal.currentEditedImageUrl m) with
    | None => failed [] (lit "Could not extract image data for editing.")
    | Some (base64Data, mimeType) =>
        match editFoodImage base64Data mimeType (Modal.editPrompt m) gemini with
        | (log, Rejected message) => failed log message
        | (log, Fulfilled editedBase64) =>
            let newImageUrl := lit "data:" ++ mimeType ++ lit ";base64," ++ editedBase64 in
            let updatedImage :=
              {| id := id image;
                 dishName := dishName image;
                 imageUrl := newImageUrl;
                 originalPrompt := originalPrompt image;
                 editHistory :=
                   editHistory image ++
                   [ {| Edit.prompt := Modal.editPrompt m;
                        Edit.imageUrl := newImageUrl |} ] |} in
            (log, {| Modal.editPrompt := [];
                     Modal.editingImage := false;
                     Modal.error := None;
                     Modal.currentEditedImageUrl := newImageUrl |},
             Some updatedImage)
        end
    end.

(** ** The running application *)

Record UI := {
  world : World;
  app : App.State;
  modal : option Modal.State;
}.

(** The initial values of the [useState] cells of the modal. *)
Definition mountModal (image : GeneratedImage) : Modal.State :=
  {| Modal.editPrompt := [];
     Modal.editingImage := false;
     Modal.error := None;
     Modal.currentEditedImageUrl := imageUrl image |}.

(** [{editingImage && <ImageEditorModal image={editingImage} ... />}]: the
    modal is mounted while [editingImage] is set, and keeps its cells for
    as long as it stays mounted. *)
Definition render (w : World) (st : App.State) (m : option Modal.State) : UI :=
  {| world := w;
     app := st;
     modal := match App.editingImage st with
              | None => None
              | Some image => Some (default (mountModal image) m)
              end |}.

Definition setMenuText (text : jsstring) (st : App.State) : App.State :=
  {| App.menuText := text;
     App.selectedStyle := App.selectedStyle st;
     App.generatedImages := App.generatedImages st;
     App.loading := App.loading st;
     App.error := App.error st;
     App.editingImage := App.editingImage st |}.

Definition setSelectedStyle (style : ImageStyle) (st : App.State) : App.State :=
  {| App.menuText := App.menuText st;
     App.selectedStyle := style;
     App.generatedImages := App.generatedImages st;
     App.loading := App.loading st;
     App.error := App.error st;
     App.editingImage := App.editingImage st |}.

Definition setEditPrompt (text : jsstring) (m : Modal.State) : Modal.State :=
  {| Modal.editPrompt := text;
     Modal.editingImage := Modal.editingImage m;
     Modal.error := Modal.error m;
     Modal.currentEditedImageUrl := Modal.currentEditedImageUrl m |}.

(** What the user can do; a handler that awaits runs to its end before the
    next event. *)
Inductive Event :=
  | TypeMenu (text : jsstring)
  | PickStyle (style : ImageStyle)
  | ClickGenerate (imagen : nat → settled GenAI.GenerateImagesResponse)
                  (order : list nat)
  | ClickEditPhoto (card : nat)
  | TypeEditPrompt (text : jsstring)
  | ClickApplyEdit (gemini : settled GenAI.GenerateContentResponse)
  | ClickClose.

Definition step (ui : UI) (ev : Event) : UI :=
  match ev with
  | TypeMenu text =>
      if App.loading (app ui) then ui
      else render (world ui) (setMenuText text (app ui)) (modal ui)
  | PickStyle style =>
      if App.loading (app ui) then ui
      else render (world ui) (setSelectedStyle style (app ui)) (modal ui)
  | ClickGenerate imagen order =>
      if App.loading (app ui) then ui
      else
        let '(w, st) := handleGenerateImages imagen order (world ui) (app ui) in
        render w st (modal ui)
  | ClickEditPhoto card =>
      match App.generatedImages (app ui) !! card with
      | None => ui
      | Some image => render (world ui) (handleEditImage image (app ui)) (modal ui)
      end
  | TypeEditPrompt text =>
      match modal ui with
      | None => ui
      | Some m =>
          if Modal.editingImage m then ui
          else render (world ui) (app ui) (Some (setEditPrompt text m))
      end
  | ClickApplyEdit gemini =>
      match App.editingImage (app ui), modal ui with
      | Some image, Some m =>
          if Modal.editingImage m then ui
          else
            let '(log, m', updated) := handleEdit image gemini m in
            let w := {| uuidCalls := uuidCalls (world ui);
                        imagenLog := imagenLog (world ui);
                        geminiLog := geminiLog (world ui) ++ log |} in
            let st := match updated with
                      | Some updatedImage => handleImageEdited updatedImage (app ui)
                      | None => app ui
                      end in
            render w st (Some m')
      | _, _ => ui
      end
  | ClickClose =>
      match modal ui with
      | None => ui
      | Some m =>
          if Modal.editingImage m then ui
          else render (world ui) (closeEditorModal (app ui)) None
      end
  end.

(** The application as first rendered. *)
Definition initial : UI :=
  {| world := {| uuidCalls := 0; imagenLog := []; geminiLog := [] |};
     app := {| App.menuText := [];
               App.selectedStyle := BRIGHT_MODERN;
               App.generatedImages := [];
               App.loading := false;
               App.error := None;
               App.editingImage := None |};
     modal := None |}.

Definition run (ui : UI) (events : list Event) : UI := foldl step ui events.

(** ** Vocabulary of the specification *)

(** The table of section 4.2: the prompt prefix and the aspect-ratio hint
    of each style, as the specification lists them. *)
Definition specPrefix (style : ImageStyle) : jsstring :=
  match style with
  | RUSTIC_DARK =>
      lit "High-end, professional food photography, rustic, dark lighting, moody, close-up, "
  | BRIGHT_MODERN =>
      lit "High-end, professional food photography, bright, modern, clean background, vibrant colors, "
  | SOCIAL_MEDIA =>
      lit "High-end, professional food photography, top-down view, social media ready, bright, clean, well-lit, "
  end.

Definition specAspect (style : ImageStyle) : GenAI.AspectRatio :=
  match style with
  | RUSTIC_DARK => GenAI.R4x3
  | BRIGHT_MODERN => GenAI.R16x9
  | SOCIAL_MEDIA => GenAI.R1x1
  end.

(** The request the specification expects for a dish. *)
Definition specRequest (style : ImageStyle) (dish : jsstring)
    : GenAI.GenerateImagesRequest :=
  {| GenAI.gi_model := lit "imagen-4.0-generate-001";
     GenAI.gi_prompt := specPrefix style ++ dish;
     GenAI.numberOfImages := 1;
     GenAI.outputMimeType := lit "image/jpeg";
     GenAI.aspectRatio := specAspect style |}.

(** How the Generation Client call for the [i]-th dish settles. *)
Definition callOutcome (style : ImageStyle)
    (imagen : nat → settled GenAI.GenerateImagesResponse)
    (i : nat) (dish : jsstring) : settled (option jsstring) :=
  (generateFoodImage dish style (imagen i)).2.

(** The dishes whose call succeeded, each with the image returned, as the
    template literal of the payload reads it, in the order of the menu
    lines. *)
Definition successes (style : ImageStyle)
    (imagen : nat → settled GenAI.GenerateImagesResponse)
    (dishes : list jsstring) : list (jsstring * jsstring) :=
  omap (λ x, x)
    (imap (λ i dish, match callOutcome style imagen i dish with
                     | Fulfilled bytes => Some (dish, inTemplate bytes)
                     | Rejected _ => None
                     end) dishes).

(** The dishes whose call failed, in the order of the menu lines. *)
Definition failures (style : ImageStyle)
    (imagen : nat → settled GenAI.GenerateImagesResponse)
    (dishes : list jsstring) : list jsstring :=
  omap (λ x, x)
    (imap (λ i dish, match callOutcome style imagen i dish with
                     | Fulfilled _ => None
                     | Rejected _ => Some dish
                     end) dishes).

(** The failed dishes in the order in which their calls settled. *)
Definition failuresAsSettled (style : ImageStyle)
    (imagen : nat → settled GenAI.GenerateImagesResponse)
    (dishes : list jsstring) (order : list nat) : list jsstring :=
  omap (λ i, dish ← dishes !! i;
             match callOutcome style imagen i dish with
             | Fulfilled _ => None
             | Rejected _ => Some dish
             end) order.

(** The message shown for a failed dish. *)
Definition failureMessage (dish : jsstring) : jsstring :=
  lit "Failed to generate image for " ++ [dquote] ++ dish ++ [dquote]
    ++ lit ". Please try again.".

(** Every call of the batch settles. *)
Definition allSettle (dishes : list jsstring) (order : list nat) : Prop :=
  ∀ i, i < length dishes → i ∈ order.

(** A tracked image as section 4.2 wants it made from a success. *)
Definition madeFrom (success : jsstring * jsstring) (g : GeneratedImage) : Prop :=
  dishName g = success.1 ∧
  originalPrompt g = success.1 ∧
  imageUrl g = encodeToDataUri success.2 (lit "image/jpeg") ∧
  editHistory g = [].

(** The error messages the presentation layer shows: the [error] cell
    holds one message or none. *)
Definition reportedErrors (st : App.State) : list jsstring :=
  option_list (App.error st).

(** The reading of the specification in which the batch reports a list of
    messages, one for each failed dish. *)
Definition reportsEveryFailure
    (imagen : nat → settled GenAI.GenerateImagesResponse)
    (order : list nat) (w : World) (st : App.State) : Prop :=
  reportedErrors (handleGenerateImages imagen order w st).2 =
  failureMessage <$>
    failures (App.selectedStyle st) imagen (dishesOf (App.menuText st)).

(** Every tracked image the application holds: the session and the image
    open in the editor. *)
Definition heldImages (st : App.State) : list GeneratedImage :=
  App.generatedImages st ++ option_list (App.editingImage st).

Definition images (ui : UI) : list GeneratedImage := heldImages (app ui).

(** Identifiers come from [uuidv4], an identifier determines the label
    and the original prompt, and no two entries of the session share
    one. *)
Record IdsOk (ui : UI) : Prop := {
  ids_drawn : ∀ g, g ∈ images ui →
    ∃ k, k < uuidCalls (world ui) ∧ id g = uuidv4 k;
  ids_origin : ∀ g h, g ∈ images ui → h ∈ images ui → id g = id h →
    originalPrompt g = originalPrompt h ∧ dishName g = dishName h;
  ids_unique : NoDup (id <$> App.generatedImages (app ui));
}.

(** The media-type header of a data URI is [image/jpeg]. *)
Definition jpegHeader (url : jsstring) : Prop :=
  mimeTypeOf url = Some (lit "image/jpeg").

(** The payload of a tracked image, and every payload of its history,
    has the header [image/jpeg]. *)
Definition jpegImage (g : GeneratedImage) : Prop :=
  jpegHeader (imageUrl g) ∧
  Forall (λ e, jpegHeader (Edit.imageUrl e)) (editHistory g).

Record HeadersOk (ui : UI) : Prop := {
  hdr_images : Forall jpegImage (images ui);
  hdr_modal : ∀ m, modal ui = Some m →
    jpegHeader (Modal.currentEditedImageUrl m);
}.

(** What the callback of a dish leaves in its slot once its call has
    settled, when [uuidv4] had been called [lo] times before the batch and
    [hi] times after it. *)
Definition settledAs (lo hi : nat)
    (promise : jsstring * settled (option jsstring))
    (cell : option (option GeneratedImage)) : Prop :=
  match promise.2 with
  | Fulfilled bytes =>
      ∃ k, lo ≤ k < hi ∧
        cell = Some (Some {| id := uuidv4 k;
                             dishName := promise.1;
                             imageUrl := lit "data:image/jpeg;base64," ++ inTemplate bytes;
                             originalPrompt := promise.1;
                             editHistory := [] |})
  | Rejected _ => cell = Some None
  end.

(** The images in the slots are as the callbacks make them, with
    identifiers drawn from [uuidv4] during the batch. *)
Definition cellsFresh (lo hi : nat)
    (cells : list (option (option GeneratedImage))) : Prop :=
  ∀ i g, cells !! i = Some (Some (Some g)) →
    ∃ k dish bytes, lo ≤ k < hi ∧
      g = {| id := uuidv4 k;
             dishName := dish;
             imageUrl := lit "data:image/jpeg;base64," ++ bytes;
             originalPrompt := dish;
             editHistory := [] |}.

(** No two images in the slots carry the same identifier. *)
Definition cellsDistinct (cells : list (option (option GeneratedImage))) : Prop :=
  ∀ i j g h, cells !! i = Some (Some (Some g)) →
             cells !! j = Some (Some (Some h)) → id g = id h → i = j.

(** The promises of a batch: each dish with how its call settles. *)
Definition promisesOf (style : ImageStyle)
    (imagen : nat → settled GenAI.GenerateImagesResponse)
    (dishes : list jsstring) : list (jsstring * settled (option jsstring)) :=
  imap (λ i dish, (dish, callOutcome style imagen i dish)) dishes.

(** ** The rest of the source *)

(** The condition under which [App] renders the line [No images generated
    yet]: [generatedImages.length === 0 && !loading && !error]. *)
Definition showsEmptyHint (st : App.State) : bool :=
  (length (App.generatedImages st) =? 0) && negb (App.loading st)
    && falsy (App.error st).

(** What a [FileReader] does after [readAsDataURL]: it fires [error], or
    [loadend] with [reader.result], a string or something else ([None]). *)
Inductive ReaderEvent :=
  | ReaderError
  | ReaderLoadEnd (result : option jsstring).

(** How the promise of [blobToBase64] settles: resolved with a value that
    may be [undefined], rejected with an [Error], or rejected with the
    event [onerror] received. *)
Inductive Base64Outcome :=
  | Resolved (value : option jsstring)
  | RejectedError (message : jsstring)
  | RejectedEvent.

(** [blobToBase64(blob)], given the events the reader fires, in order.
    The first call of [resolve] or [reject] settles the promise; with no
    event it stays pending ([None]). *)
Definition blobToBase64 (events : list ReaderEvent) : option Base64Outcome :=
  match events with
  | [] => None
  | ReaderError :: _ => Some RejectedEvent
  | ReaderLoadEnd (Some result) :: _ => Some (Resolved (split comma result !! 1))
  | ReaderLoadEnd None :: _ =>
      Some (RejectedError (lit "Failed to convert blob to base64 string."))
  end.

(** The request [editFoodImage] builds. *)
Definition editRequest (base64ImageData mimeType editPrompt : jsstring)
    : GenAI.GenerateContentRequest :=
  {| GenAI.gc_model := lit "gemini-2.5-flash-image";
     GenAI.contents :=
       {| GenAI.parts := Some
            [ {| GenAI.inlineData :=
                   Some {| GenAI.data := Some base64ImageData;
                           GenAI.mimeType := Some mimeType |};
                 GenAI.text := None |};
              {| GenAI.inlineData := None;
                 GenAI.text := Some editPrompt |} ] |};
     GenAI.responseModalities := [GenAI.IMAGE] |}.

(** The payload of a tracked image is that of its last edit, when it has
    been edited. *)
Definition payloadIsLastEdit (g : GeneratedImage) : Prop :=
  ∀ e, last (editHistory g) = Some e → Edit.imageUrl e = imageUrl g.

(** No prompt of the edit history is blank. *)
Definition promptsNotBlank (g : GeneratedImage) : Prop :=
  Forall (λ e, truthy (trim (Edit.prompt e)) = true) (editHistory g).

(** Among the images held, the identifier determines the image. *)
Definition coherent (ui : UI) : Prop :=
  ∀ g h, g ∈ images ui → h ∈ images ui → id g = id h → g = h.

(** The events whose controls lie under the modal, which covers the page
    ([fixed inset-0 z-50]): the Generate button and the cards. *)
Definition underModal (ev : Event) : bool :=
  match ev with
  | ClickGenerate _ _ | ClickEditPhoto _ => true
  | _ => false
  end.

(** The events come with the modal in the way: none of them reaches a
    control under the modal while it is open. *)
Fixpoint modalCovers (ui : UI) (events : list Event) : Prop :=
  match events with
  | [] => True
  | ev :: rest =>
      (is_Some (modal ui) → underModal ev = false) ∧ modalCovers (step ui ev) rest
  end.

(** The editor and the session agree: the image being edited is an entry
    of the session and the modal shows its payload. *)
Definition editorInSync (ui : UI) : Prop :=
  match App.editingImage (app ui), modal ui with
  | None, None => True
  | Some image, Some m =>
      image ∈ App.generatedImages (app ui) ∧
      Modal.currentEditedImageUrl m = imageUrl image
  | _, _ => False
  end.

(** The batch is stuck: a call never settled. *)
Definition stuck (ui : UI) : Prop :=
  App.loading (app ui) = true ∧ App.generatedImages (app ui) = [].

(* ------------------------------------------------------------------- *)
(** ** Strings *)
(* ------------------------------------------------------------------- *)

Lemma truthy_nil_iff (s : jsstring) : truthy s = false ↔ s = [].
Proof. by destruct s. Qed.

Lemma split_not_nil sep s : split sep s ≠ [].
Proof.
  destruct s as [|c s]; simpl; [done|].
  destruct (c =? sep)%N; [done|]. by destruct (split sep s).
Qed.

Lemma lacks_app c a b : lacks c (a ++ b) = lacks c a && lacks c b.
Proof. apply forallb_app. Qed.

(** A string without the separator is one piece. *)
Lemma split_lacks sep a : lacks sep a = true → split sep a = [a].
Proof.
  induction a as [|c a IH]; simpl; [done|].
  intros [Hc Ha]%andb_prop. rewrite (negb_true_iff _) in Hc.
  rewrite Hc, (IH Ha). done.
Qed.

(** The first piece ends at the first separator. *)
Lemma split_first sep a b :
  lacks sep a = true → split sep (a ++ sep :: b) = a :: split sep b.
Proof.
  induction a as [|c a IH]; simpl.
  - intros _. by rewrite N.eqb_refl.
  - intros [Hc Ha]%andb_prop. rewrite (negb_true_iff _) in Hc.
    rewrite Hc, (IH Ha). done.
Qed.

(** What holds of every code unit of a string holds of every code unit of
    its pieces. *)
Lemma split_forallb (q : N → bool) sep s :
  forallb q s = true → Forall (λ piece, forallb q piece = true) (split sep s).
Proof.
  induction s as [|c s IH]; simpl.
  - intros _. by repeat constructor.
  - intros [Hc Hs]%andb_prop. specialize (IH Hs).
    destruct (c =? sep)%N; [by constructor|].
    destruct (split sep s) as [|piece pieces]; [by repeat constructor; simpl; rewrite Hc|].
    inversion_clear IH. constructor; [|done]. simpl. by rewrite Hc.
Qed.

(** No piece contains the separator. *)
Lemma split_pieces_lack sep s : Forall (λ piece, lacks sep piece = true) (split sep s).
Proof.
  induction s as [|c s IH]; simpl; [by repeat constructor|].
  destruct (c =? sep)%N eqn:Hc; [by constructor|].
  destruct (split sep s) as [|piece pieces];
    [by repeat constructor; simpl; rewrite Hc|].
  inversion_clear IH. constructor; [|done]. simpl. by rewrite Hc.
Qed.

(** When the separator is itself stripped by [q], the pieces are all [q]
    exactly when the string is. *)
Lemma split_all_iff (q : N → bool) sep s :
  q sep = true →
  Forall (λ piece, forallb q piece = true) (split sep s) ↔ forallb q s = true.
Proof.
  intros Hsep. split; [|apply split_forallb].
  induction s as [|c s IH]; simpl; [done|].
  destruct (c =? sep)%N eqn:Hc.
  - apply N.eqb_eq in Hc as ->. rewrite Hsep. simpl.
    intros H. inversion_clear H. auto.
  - pose proof (split_not_nil sep s).
    destruct (split sep s) as [|piece pieces]; [done|].
    intros H'. inversion_clear H' as [|?? Hhd Htl]. simpl in Hhd.
    apply andb_prop in Hhd as [-> Hpiece]. simpl. apply IH. by constructor.
Qed.

Lemma dropWhile_nil_iff {A} (p : A → bool) l :
  dropWhile p l = [] ↔ forallb p l = true.
Proof.
  induction l as [|x l IH]; simpl; [done|].
  destruct (p x); simpl; [done|]. split; [done|discriminate].
Qed.

Lemma forallb_reverse {A} (p : A → bool) l :
  forallb p (reverse l) = forallb p l.
Proof.
  induction l as [|x l IH]; [done|].
  rewrite reverse_cons, forallb_app, IH. simpl. rewrite andb_true_r. apply andb_comm.
Qed.

(** [s.trim()] is empty exactly when [s] holds nothing but white space
    and line terminators. *)
Lemma trim_nil_iff s : trim s = [] ↔ forallb isTrimmable s = true.
Proof.
  unfold trim, trimEnd, trimStart. split.
  - intros H. apply (f_equal reverse) in H. rewrite reverse_involutive in H.
    change (reverse []) with (@nil N) in H.
    apply dropWhile_nil_iff in H. rewrite forallb_reverse in H.
    destruct (forallb isTrimmable s) eqn:Hs; [done|].
    assert (dropWhile isTrimmable s ≠ []) as Hne
      by (rewrite dropWhile_nil_iff, Hs; discriminate).
    clear Hs. induction s as [|c s IH]; simpl in *; [done|].
    destruct (isTrimmable c) eqn:Hc; [auto|].
    simpl in H. by rewrite Hc in H.
  - intros H. apply dropWhile_nil_iff in H as ->. done.
Qed.

Lemma truthy_trim s : truthy (trim s) = negb (forallb isTrimmable s).
Proof.
  destruct (forallb isTrimmable s) eqn:H.
  - apply trim_nil_iff in H as ->. done.
  - destruct (trim s) eqn:Ht; [|done].
    apply trim_nil_iff in Ht. congruence.
Qed.

Lemma filter_truthy_nil (ls : list jsstring) :
  List.filter truthy ls = [] ↔ Forall (λ l, l = []) ls.
Proof.
  induction ls as [|l ls IH]; simpl; [done|].
  destruct l; simpl.
  - rewrite IH. split; [by constructor|by inversion 1].
  - split; [done|by inversion 1].
Qed.

(** The menu has no dish exactly when it is empty or all white space. *)
Lemma dishesOf_nil_iff menuText :
  dishesOf menuText = [] ↔ forallb isTrimmable menuText = true.
Proof.
  unfold dishesOf. rewrite filter_truthy_nil, Forall_fmap.
  rewrite <- (split_all_iff isTrimmable LF) by done.
  apply Forall_proper; [|done]. intros line. apply trim_nil_iff.
Qed.

Lemma dishesOf_nil_trim menuText :
  dishesOf menuText = [] ↔ trim menuText = [].
Proof. by rewrite dishesOf_nil_iff, trim_nil_iff. Qed.

(** A dish is a trimmed, non-empty line. *)
Lemma dishesOf_spec menuText dish :
  dish ∈ dishesOf menuText ↔
  dish ≠ [] ∧ ∃ line, line ∈ split LF menuText ∧ dish = trim line.
Proof.
  unfold dishesOf. rewrite list_elem_of_In, filter_In, <- list_elem_of_In.
  rewrite list_elem_of_fmap. split.
  - intros [(line & -> & Hin) Ht]. split; [|eauto].
    intros Hnil. by rewrite Hnil in Ht.
  - intros [Hne (line & Hin & ->)]. split; [eauto|].
    by destruct (trim line).
Qed.

(* ------------------------------------------------------------------- *)
(** ** Data URIs *)
(* ------------------------------------------------------------------- *)

Lemma jpeg_template bytes :
  lit "data:image/jpeg;base64," ++ bytes = encodeToDataUri bytes (lit "image/jpeg").
Proof. reflexivity. Qed.

(** The media type read back from a data URI is what was written into it,
    whatever follows the header. *)
Lemma mimeTypeOf_encode data mimeType :
  lacks semicolon mimeType = true → lacks colon mimeType = true →
  mimeTypeOf (encodeToDataUri data mimeType) = Some mimeType.
Proof.
  intros Hsemi Hcolon. unfold mimeTypeOf, encodeToDataUri.
  change (lit ";base64," ++ data) with (semicolon :: lit "base64," ++ data).
  rewrite (app_assoc (lit "data:")), split_first
    by (by rewrite lacks_app, Hsemi).
  change (default [] ((?x :: ?l) !! 0)) with x.
  change (lit "data:" ++ mimeType) with (lit "data" ++ colon :: mimeType).
  rewrite split_first by done. by rewrite split_lacks.
Qed.

Lemma base64DataOf_encode data mimeType :
  lacks comma mimeType = true → lacks comma data = true →
  base64DataOf (encodeToDataUri data mimeType) = Some data.
Proof.
  intros Hm Hd. unfold base64DataOf, encodeToDataUri.
  change (lit ";base64," ++ data) with (lit ";base64" ++ comma :: data).
  rewrite !app_assoc, split_first
    by (by rewrite !lacks_app, Hm).
  by rewrite split_lacks.
Qed.

(** The media type the decoder reads holds neither [;] nor [:]. *)
Lemma mimeTypeOf_lacks url mimeType :
  mimeTypeOf url = Some mimeType →
  lacks semicolon mimeType = true ∧ lacks colon mimeType = true.
Proof.
  unfold mimeTypeOf. intros H.
  pose proof (split_pieces_lack semicolon url) as Hhead.
  destruct (split semicolon url) as [|h pieces]; simpl in H.
  - discriminate.
  - inversion_clear Hhead as [|?? Hh _]. split.
    + eapply (Forall_lookup_1 _ _ _ _ (split_forallb _ colon h Hh) H).
    + eapply (Forall_lookup_1 _ _ _ _ (split_pieces_lack colon h) H).
Qed.

Lemma decodeFromDataUri_Some url base64Data mimeType :
  decodeFromDataUri url = Some (base64Data, mimeType) ↔
  base64DataOf url = Some base64Data ∧ mimeTypeOf url = Some mimeType ∧
  base64Data ≠ [] ∧ mimeType ≠ [].
Proof.
  unfold decodeFromDataUri.
  destruct (base64DataOf url) as [b|], (mimeTypeOf url) as [m|];
    try (split; [discriminate|by intros (? & ? & _)]).
  destruct b, m; simpl; split; try discriminate;
    try (by intros (? & ? & ? & ?); simplify_eq).
  by inversion 1.
Qed.

(** An edit writes into the new data URI the media type it read from the
    old one. *)
Lemma mimeTypeOf_reencode url mimeType data :
  mimeTypeOf url = Some mimeType →
  mimeTypeOf (encodeToDataUri data mimeType) = mimeTypeOf url.
Proof.
  intros H. destruct (mimeTypeOf_lacks _ _ H). rewrite H.
  by apply mimeTypeOf_encode.
Qed.

Lemma decode_encode_valid data mimeType :
  data ≠ [] → mimeType ≠ [] →
  lacks comma data = true → lacks comma mimeType = true →
  lacks semicolon mimeType = true → lacks colon mimeType = true →
  decodeFromDataUri (encodeToDataUri data mimeType) = Some (data, mimeType).
Proof.
  intros. apply decodeFromDataUri_Some. split_and!; try done.
  - by apply base64DataOf_encode.
  - by apply mimeTypeOf_encode.
Qed.

(** C6, as the code has it.  The round-trip law
    [decodeFromDataUri(encodeToDataUri(p, m)) == (p, m)] holds for every
    payload [p] that is not empty and holds no comma (base64 text never
    does) and every media type [m] that is not empty and holds none of
    [,], [;] and [:]: decoding the data URI written for them returns
    exactly [(p, m)].  It does not hold for every payload: with such a
    media type the data URI of the empty payload does not decode. *)
Theorem decode_encode_roundtrip (p m : jsstring) :
  validPayload p = true → validMediaType m = true →
  decodeFromDataUri (encodeToDataUri p m) = Some (p, m) ∧
  decodeFromDataUri (encodeToDataUri [] m) = None.
Proof.
  unfold validPayload, validMediaType.
  intros [Hp Hpc]%andb_prop [[[Hm Hmc]%andb_prop Hms]%andb_prop Hmk]%andb_prop.
  split.
  - apply decode_encode_valid; try done; [by destruct p|by destruct m].
  - unfold decodeFromDataUri.
    by rewrite base64DataOf_encode, mimeTypeOf_encode.
Qed.

(** The conditions of validity are needed: an empty payload does not
    decode, and a media type with parameters is cut at its [;]. *)
Example decode_encode_empty_payload :
  decodeFromDataUri (encodeToDataUri [] (lit "image/png")) = None.
Proof. reflexivity. Qed.

Example decode_encode_parameters :
  decodeFromDataUri (encodeToDataUri (lit "QUJD") (lit "image/png;q=1"))
  = Some (lit "QUJD", lit "image/png").
Proof. reflexivity. Qed.

(* ------------------------------------------------------------------- *)
(** ** The service module *)
(* ------------------------------------------------------------------- *)

Lemma generateFoodImage_request prompt style remote :
  falsy API_KEY = false →
  (generateFoodImage prompt style remote).1 = [specRequest style prompt].
Proof.
  intros Hkey. unfold generateFoodImage. rewrite Hkey.
  by destruct style.
Qed.

Lemma generateFoodImage_no_key prompt style remote :
  falsy API_KEY = true →
  generateFoodImage prompt style remote =
  ([], Rejected (lit "API Key is missing. Cannot generate image.")).
Proof. intros Hkey. unfold generateFoodImage. by rewrite Hkey. Qed.

(** The image returned is the first of the response. *)
Lemma generateFoodImage_Fulfilled prompt style response first rest image :
  falsy API_KEY = false →
  GenAI.generatedImages response = Some (first :: rest) →
  GenAI.image first = Some image →
  (generateFoodImage prompt style (Fulfilled response)).2
  = Fulfilled (GenAI.imageBytes image).
Proof.
  intros Hkey Hr Himage. unfold generateFoodImage. rewrite Hkey.
  destruct style; simpl; by rewrite Hr, Himage.
Qed.

(** The Edit Client returns non-empty data or fails. *)
Lemma editFoodImage_Fulfilled base64 mimeType editPrompt remote log data :
  editFoodImage base64 mimeType editPrompt remote = (log, Fulfilled data) →
  data ≠ [] ∧ ∃ response part blob,
    remote = Fulfilled response ∧
    editedImagePart response = Some part ∧
    GenAI.inlineData part = Some blob ∧
    GenAI.data blob = Some data.
Proof.
  unfold editFoodImage. destruct (falsy API_KEY); [discriminate|].
  destruct remote as [response|]; [|discriminate].
  destruct (editedImagePart response) as [part|] eqn:Hpart; simpl; [|discriminate].
  destruct (GenAI.inlineData part) as [blob|] eqn:Hblob; simpl; [|discriminate].
  destruct (GenAI.data blob) as [[|c d]|] eqn:Hdata; simpl; try discriminate.
  intros [= <- <-]. split; [discriminate|]. by exists response, part, blob.
Qed.

(** A transport or service failure is passed on with its message. *)
Lemma editFoodImage_service_error base64 mimeType editPrompt message :
  falsy API_KEY = false →
  (editFoodImage base64 mimeType editPrompt (Rejected message)).2
  = Rejected (lit "Failed to edit image: " ++ message).
Proof. intros Hkey. unfold editFoodImage. by rewrite Hkey. Qed.

(** A response without an image part is a failure. *)
Lemma editFoodImage_no_image base64 mimeType editPrompt response :
  falsy API_KEY = false →
  editedImagePart response = None →
  (editFoodImage base64 mimeType editPrompt (Fulfilled response)).2
  = Rejected (lit "Failed to edit image: No edited image returned by the model.").
Proof. intros Hkey Hnone. unfold editFoodImage. by rewrite Hkey, Hnone. Qed.

(** One request at most, carrying what was passed in. *)
Lemma editFoodImage_log base64 mimeType editPrompt remote :
  length (editFoodImage base64 mimeType editPrompt remote).1 ≤ 1.
Proof. unfold editFoodImage. destruct (falsy API_KEY); simpl; lia. Qed.

(* ------------------------------------------------------------------- *)
(** ** The batch *)
(* ------------------------------------------------------------------- *)

Lemma promisesOf_calls style imagen dishes :
  (λ c : jsstring * (list GenAI.GenerateImagesRequest * settled (option jsstring)),
     (c.1, c.2.2))
    <$> imap (λ i dish, (dish, generateFoodImage dish style (imagen i))) dishes
  = promisesOf style imagen dishes.
Proof.
  apply list_eq. intros i. unfold promisesOf.
  rewrite list_lookup_fmap, !list_lookup_imap. by destruct (dishes !! i).
Qed.

Lemma promisesOf_lookup style imagen dishes i :
  promisesOf style imagen dishes !! i
  = (λ dish, (dish, callOutcome style imagen i dish)) <$> dishes !! i.
Proof. unfold promisesOf. apply list_lookup_imap. Qed.

Lemma length_promisesOf style imagen dishes :
  length (promisesOf style imagen dishes) = length dishes.
Proof. apply length_imap. Qed.

Section Settle.
Variable promises : list (jsstring * settled (option jsstring)).

Lemma settleDish_length b i :
  length (slots (settleDish promises b i)) = length (slots b).
Proof.
  unfold settleDish. destruct (promises !! i) as [[dish [bytes|msg]]|]; simpl;
    by rewrite ?length_insert.
Qed.

Lemma settleDish_calls b i :
  b_uuidCalls b ≤ b_uuidCalls (settleDish promises b i).
Proof.
  unfold settleDish. destruct (promises !! i) as [[dish [bytes|msg]]|]; simpl; lia.
Qed.

Lemma settleDish_other b i j :
  i ≠ j → slots (settleDish promises b i) !! j = slots b !! j.
Proof.
  intros Hne. unfold settleDish.
  destruct (promises !! i) as [[dish [bytes|msg]]|]; simpl;
    by rewrite ?list_lookup_insert_ne.
Qed.

Lemma settleDish_this b i promise :
  length (slots b) = length promises →
  promises !! i = Some promise →
  ∃ cell, slots (settleDish promises b i) !! i = Some cell ∧
          settledAs (b_uuidCalls b) (b_uuidCalls (settleDish promises b i))
                    promise cell.
Proof.
  intros Hlen Hi. pose proof (lookup_lt_Some _ _ _ Hi) as Hlt.
  unfold settleDish, settledAs. rewrite Hi.
  destruct promise as [dish [bytes|msg]]; simpl.
  - eexists. rewrite list_lookup_insert_eq by lia. split; [done|].
    exists (b_uuidCalls b). split; [lia|done].
  - eexists. rewrite list_lookup_insert_eq by lia. done.
Qed.

Lemma settledAs_weaken lo lo' hi hi' promise cell :
  lo' ≤ lo → hi ≤ hi' →
  settledAs lo hi promise cell → settledAs lo' hi' promise cell.
Proof.
  unfold settledAs. intros ??. destruct (promise.2); [|done].
  intros (k & ? & ?). exists k. split; [lia|done].
Qed.

Lemma settle_length order b :
  length (slots (foldl (settleDish promises) b order)) = length (slots b).
Proof.
  revert b. induction order as [|i order IH]; intros b; simpl; [done|].
  by rewrite IH, settleDish_length.
Qed.

Lemma settle_calls order b :
  b_uuidCalls b ≤ b_uuidCalls (foldl (settleDish promises) b order).
Proof.
  revert b. induction order as [|i order IH]; intros b; simpl; [done|].
  etrans; [apply (settleDish_calls b i)|apply IH].
Qed.

(** A call that has not settled leaves its slot as it was. *)
Lemma settle_pending order b j :
  j ∉ order →
  slots (foldl (settleDish promises) b order) !! j = slots b !! j.
Proof.
  revert b. induction order as [|i order IH]; intros b; simpl; [done|].
  intros [Hne Hj]%not_elem_of_cons.
  rewrite IH by done. by apply settleDish_other.
Qed.

(** A call that has settled has filled its slot, whenever it did. *)
Lemma settle_settled order b j promise :
  length (slots b) = length promises →
  j ∈ order → promises !! j = Some promise →
  ∃ cell, slots (foldl (settleDish promises) b order) !! j = Some cell ∧
          settledAs (b_uuidCalls b)
                    (b_uuidCalls (foldl (settleDish promises) b order))
                    promise cell.
Proof.
  revert b. induction order as [|i order IH]; intros b Hlen Hj Hp; simpl.
  - by apply elem_of_nil in Hj.
  - destruct (decide (j ∈ order)) as [Hin|Hnotin].
    + destruct (IH (settleDish promises b i)) as (cell & Hcell & Hs);
        [by rewrite settleDish_length|done|done|].
      exists cell. split; [done|].
      eapply settledAs_weaken; [apply (settleDish_calls b i)|reflexivity|done].
    + apply elem_of_cons in Hj as [->|]; [|done].
      destruct (settleDish_this b i promise Hlen Hp) as (cell & Hcell & Hs).
      exists cell. rewrite settle_pending by done. split; [done|].
      eapply settledAs_weaken; [reflexivity|apply settle_calls|done].
Qed.

(** The [error] cell holds the message of the failure that came last. *)
Lemma settle_error order b :
  b_error (foldl (settleDish promises) b order) =
  from_option (λ dish, Some (failureMessage dish)) (b_error b)
    (last (omap (λ i, promise ← promises !! i;
                      match promise.2 with
                      | Fulfilled _ => None
                      | Rejected _ => Some promise.1
                      end) order)).
Proof.
  revert b. induction order as [|i order IH]; intros b; cbn; [done|].
  rewrite IH. unfold settleDish at 1.
  destruct (promises !! i) as [[dish [bytes|msg]]|]; cbn; try done.
  match goal with |- context [last (_ :: ?rest)] => destruct rest as [|d tl] end;
    [done|].
  rewrite last_cons_cons.
  destruct (last (d :: tl)) eqn:Hlast; [done|]. by apply last_None in Hlast.
Qed.

Lemma settleDish_cellsFresh lo b i :
  lo ≤ b_uuidCalls b →
  cellsFresh lo (b_uuidCalls b) (slots b) →
  cellsFresh lo (b_uuidCalls (settleDish promises b i))
             (slots (settleDish promises b i)).
Proof.
  intros Hlo Hfresh. unfold settleDish.
  destruct (promises !! i) as [[dish [bytes|msg]]|]; cbn; [| |done].
  - intros j g [(-> & [= <-] & _)|[_ Hj]]%list_lookup_insert_Some.
    + exists (b_uuidCalls b), dish, (inTemplate bytes). split; [lia|done].
    + destruct (Hfresh j g Hj) as (k & d & bs & ? & ?).
      exists k, d, bs. split; [lia|done].
  - intros j g [(_ & [=] & _)|[_ Hj]]%list_lookup_insert_Some. eauto.
Qed.

Lemma settle_cellsFresh lo order b :
  lo ≤ b_uuidCalls b →
  cellsFresh lo (b_uuidCalls b) (slots b) →
  cellsFresh lo (b_uuidCalls (foldl (settleDish promises) b order))
             (slots (foldl (settleDish promises) b order)).
Proof.
  revert b. induction order as [|i order IH]; intros b Hlo Hok; cbn; [done|].
  apply IH; [|by apply settleDish_cellsFresh].
  etrans; [done|apply settleDish_calls].
Qed.

Lemma settleDish_cellsDistinct lo b i :
  cellsFresh lo (b_uuidCalls b) (slots b) →
  cellsDistinct (slots b) →
  cellsDistinct (slots (settleDish promises b i)).
Proof using uuidv4_unique.
  intros Hfresh Hinj. unfold settleDish.
  destruct (promises !! i) as [[dish [bytes|msg]]|]; cbn; [| |done].
  - intros j1 j2 g h
      [(-> & [= <-] & _)|[Hne1 Hj1]]%list_lookup_insert_Some
      [(-> & [= <-] & _)|[Hne2 Hj2]]%list_lookup_insert_Some; cbn; try done.
    + intros Heq. destruct (Hfresh j2 h Hj2) as (k & ? & ? & Hk & ->).
      apply uuidv4_unique in Heq. lia.
    + intros Heq. destruct (Hfresh j1 g Hj1) as (k & ? & ? & Hk & ->).
      apply uuidv4_unique in Heq. lia.
    + eauto.
  - intros j1 j2 g h
      [(_ & [=] & _)|[_ Hj1]]%list_lookup_insert_Some
      [(_ & [=] & _)|[_ Hj2]]%list_lookup_insert_Some. eauto.
Qed.

Lemma settle_cellsDistinct lo order b :
  lo ≤ b_uuidCalls b →
  cellsFresh lo (b_uuidCalls b) (slots b) →
  cellsDistinct (slots b) →
  cellsDistinct (slots (foldl (settleDish promises) b order)).
Proof using uuidv4_unique.
  revert b. induction order as [|i order IH]; intros b Hlo Hfresh Hinj; cbn; [done|].
  apply IH.
  - etrans; [done|apply settleDish_calls].
  - by apply settleDish_cellsFresh.
  - by eapply settleDish_cellsDistinct.
Qed.
End Settle.

Lemma cellsFresh_replicate lo hi n : cellsFresh lo hi (replicate n None).
Proof. intros i g [? _]%lookup_replicate. done. Qed.

Lemma cellsDistinct_replicate n : cellsDistinct (replicate n None).
Proof. intros i j g h [? _]%lookup_replicate. done. Qed.

(** Matching optional entries pairwise matches what [filter] keeps. *)
Lemma omap_Forall2 {A B} (R : A → B → Prop) (xs : list (option A)) (ys : list (option B)) :
  Forall2 (λ x y, match x, y with
                  | Some a, Some b => R a b
                  | None, None => True
                  | _, _ => False
                  end) xs ys →
  Forall2 R (omap (λ x, x) xs) (omap (λ y, y) ys).
Proof.
  induction 1 as [|[a|] [b|] xs ys Hxy _ IH]; simpl; try done.
  by constructor.
Qed.

(** Of the dishes, each either succeeded or failed. *)
Lemma length_omap_split {A B C} (f : nat → A → option B) (g : nat → A → option C) l :
  (∀ i x, (is_Some (f i x) ∧ g i x = None) ∨ (f i x = None ∧ is_Some (g i x))) →
  length (omap (λ x, x) (imap f l)) + length (omap (λ x, x) (imap g l)) = length l.
Proof.
  revert f g. induction l as [|x l IH]; intros f g Hfg; simpl; [done|].
  specialize (IH (f ∘ S) (g ∘ S) (λ i, Hfg (S i))).
  destruct (Hfg 0 x) as [[[b ->] ->]|[-> [c ->]]]; csimpl; simpl; lia.
Qed.

Lemma successes_failures_length style imagen dishes :
  length (successes style imagen dishes) + length (failures style imagen dishes)
  = length dishes.
Proof.
  apply length_omap_split. intros i dish.
  destruct (callOutcome style imagen i dish); eauto.
Qed.

Lemma concat_singletons {A B} (f : A → B) (l : list A) :
  concat ((λ x, [f x]) <$> l) = f <$> l.
Proof. induction l as [|x l IH]; simpl; [done|]. by f_equal. Qed.

(** The requests of a batch: one for each dish, in the order of the menu
    lines, or none at all without an API key. *)
Lemma batch_requests style imagen dishes :
  concat ((λ c : jsstring * (list GenAI.GenerateImagesRequest * settled (option jsstring)),
             c.2.1)
            <$> imap (λ i dish, (dish, generateFoodImage dish style (imagen i))) dishes)
  = if falsy API_KEY then [] else specRequest style <$> dishes.
Proof.
  destruct (falsy API_KEY) eqn:Hkey.
  - induction dishes as [|dish dishes IH] in imagen |- *; simpl; [done|].
    rewrite generateFoodImage_no_key by done. simpl. apply (IH (imagen ∘ S)).
  - rewrite <- (concat_singletons (specRequest style) dishes). f_equal. apply list_eq. intros i.
    rewrite !list_lookup_fmap, list_lookup_imap.
    destruct (dishes !! i) as [dish|]; simpl; [|done].
    by rewrite generateFoodImage_request.
Qed.

(** The handler run on a menu that has a dish, with the promises and the
    requests spelled out. *)
Lemma handleGenerateImages_runs imagen order w st :
  truthy (trim (App.menuText st)) = true →
  handleGenerateImages imagen order w st =
  let dishes := dishesOf (App.menuText st) in
  let b := foldl (settleDish (promisesOf (App.selectedStyle st) imagen dishes))
             {| slots := replicate (length dishes) None;
                b_error := None;
                b_uuidCalls := uuidCalls w |} order in
  let w' := {| uuidCalls := b_uuidCalls b;
               imagenLog := imagenLog w ++
                 (if falsy API_KEY then []
                  else specRequest (App.selectedStyle st) <$> dishes);
               geminiLog := geminiLog w |} in
  (w', {| App.menuText := App.menuText st;
          App.selectedStyle := App.selectedStyle st;
          App.generatedImages :=
            match mapM (λ slot, slot) (slots b) with
            | Some results => omap (λ result, result) results
            | None => []
            end;
          App.loading :=
            match mapM (λ slot, slot) (slots b) with
            | Some _ => false
            | None => true
            end;
          App.error := b_error b;
          App.editingImage := App.editingImage st |}).
Proof.
  intros Hmenu. unfold handleGenerateImages. rewrite Hmenu. cbn [negb].
  rewrite promisesOf_calls, batch_requests. cbv zeta.
  by destruct (mapM _ _).
Qed.

Lemma handleGenerateImages_rejects imagen order w st :
  truthy (trim (App.menuText st)) = false →
  handleGenerateImages imagen order w st =
  (w, {| App.menuText := App.menuText st;
         App.selectedStyle := App.selectedStyle st;
         App.generatedImages := App.generatedImages st;
         App.loading := App.loading st;
         App.error := Some (lit "Please enter your menu items.");
         App.editingImage := App.editingImage st |}).
Proof. intros Hmenu. unfold handleGenerateImages. by rewrite Hmenu. Qed.

(** Once every call has settled, every slot is filled. *)
Lemma batch_results style imagen dishes order lo :
  allSettle dishes order →
  let b := foldl (settleDish (promisesOf style imagen dishes))
             {| slots := replicate (length dishes) None;
                b_error := None;
                b_uuidCalls := lo |} order in
  ∃ results,
    slots b = Some <$> results ∧
    length results = length dishes ∧
    ∀ i dish result, dishes !! i = Some dish → results !! i = Some result →
      settledAs lo (b_uuidCalls b) (dish, callOutcome style imagen i dish)
                (Some result).
Proof.
  intros Hall b.
  assert (length (slots b) = length dishes) as Hlen.
  { unfold b. rewrite settle_length. apply length_replicate. }
  assert (∀ i dish, dishes !! i = Some dish →
    ∃ cell, slots b !! i = Some cell ∧
      settledAs lo (b_uuidCalls b) (dish, callOutcome style imagen i dish) cell)
    as Hcells.
  { intros i dish Hi. unfold b.
    apply (settle_settled (promisesOf style imagen dishes) order
             {| slots := replicate (length dishes) None;
                b_error := None;
                b_uuidCalls := lo |}
             i (dish, callOutcome style imagen i dish)).
    - cbn [slots]. by rewrite length_replicate, length_promisesOf.
    - apply Hall. by eapply lookup_lt_Some.
    - by rewrite promisesOf_lookup, Hi. }
  exists (default None <$> slots b). split_and!.
  - apply list_eq. intros i. rewrite !list_lookup_fmap.
    destruct (dishes !! i) as [dish|] eqn:Hi.
    + destruct (Hcells i dish Hi) as (cell & -> & Hs). simpl. f_equal.
      unfold settledAs in Hs. simpl in Hs.
      destruct (callOutcome style imagen i dish).
      * by destruct Hs as (k & _ & ->).
      * by rewrite Hs.
    + apply lookup_ge_None in Hi.
      by rewrite (proj2 (lookup_ge_None (slots b) i)) by lia.
  - by rewrite length_fmap.
  - intros i dish result Hi. rewrite list_lookup_fmap.
    destruct (Hcells i dish Hi) as (cell & -> & Hs). simpl. intros [= <-].
    unfold settledAs in *. simpl in *.
    destruct (callOutcome style imagen i dish).
    + destruct Hs as (k & ? & ->). by exists k.
    + by rewrite Hs.
Qed.

(** Filled slots with identifiers all different give a session with
    identifiers all different. *)
Lemma cells_NoDup (results : list (option GeneratedImage)) :
  cellsDistinct (Some <$> results) →
  NoDup (id <$> omap (λ result, result) results).
Proof.
  intros Hinj.
  assert (∀ i j g h, results !! i = Some (Some g) → results !! j = Some (Some h) →
                     id g = id h → i = j) as Hinj'.
  { intros i j g h Hi Hj. apply Hinj; by rewrite list_lookup_fmap, ?Hi, ?Hj. }
  clear Hinj. induction results as [|[g|] results IH]; simpl.
  - constructor.
  - constructor.
    + intros (h & Hid & (r & Hr & ->)%list_elem_of_omap)%list_elem_of_fmap.
      apply list_elem_of_lookup in Hr as [j Hj].
      by specialize (Hinj' 0 (S j) g h eq_refl Hj Hid).
    + apply IH. intros i j g' h' Hi Hj Hid.
      by specialize (Hinj' (S i) (S j) g' h' Hi Hj Hid) as [= ->].
  - apply IH. intros i j g' h' Hi Hj Hid.
    by specialize (Hinj' (S i) (S j) g' h' Hi Hj Hid) as [= ->].
Qed.

Lemma mapM_slots {A} (cells : list (option A)) results :
  mapM (λ slot, slot) cells = Some results ↔ cells = Some <$> results.
Proof.
  rewrite mapM_Some. split.
  - induction 1 as [|?????? IH]; simpl; [done|]. by subst.
  - intros ->. induction results; by constructor.
Qed.

Lemma failures_elem style imagen dishes dish :
  dish ∈ failures style imagen dishes ↔
  ∃ i message, dishes !! i = Some dish ∧
               callOutcome style imagen i dish = Rejected message.
Proof.
  unfold failures. rewrite list_elem_of_omap. split.
  - intros (x & [i Hi]%list_elem_of_lookup & ->).
    rewrite list_lookup_imap in Hi.
    destruct (dishes !! i) as [d|] eqn:Hd; simpl in Hi; [|done].
    destruct (callOutcome style imagen i d) as [|message] eqn:Hcall; [done|].
    injection Hi as [= ->]. by exists i, message.
  - intros (i & message & Hi & Hcall). exists (Some dish). split; [|done].
    apply list_elem_of_lookup. exists i.
    by rewrite list_lookup_imap, Hi; simpl; rewrite Hcall.
Qed.

Lemma failuresAsSettled_elem style imagen dishes order dish :
  dish ∈ failuresAsSettled style imagen dishes order ↔
  ∃ i message, i ∈ order ∧ dishes !! i = Some dish ∧
               callOutcome style imagen i dish = Rejected message.
Proof.
  unfold failuresAsSettled. rewrite list_elem_of_omap. split.
  - intros (i & Hi & Hf).
    destruct (dishes !! i) as [d|] eqn:Hd; simpl in Hf; [|done].
    destruct (callOutcome style imagen i d) as [|message] eqn:Hcall; [done|].
    injection Hf as [= ->]. by exists i, message.
  - intros (i & message & Hi & Hd & Hcall). exists i. split; [done|].
    by rewrite Hd; simpl; rewrite Hcall.
Qed.

(** With a single failure, the failure that settled last is that one. *)
Lemma last_failure_single style imagen dishes order dish :
  allSettle dishes order →
  failures style imagen dishes = [dish] →
  last (failuresAsSettled style imagen dishes order) = Some dish.
Proof.
  intros Hall Hone.
  assert (dish ∈ failures style imagen dishes) as Hin by (rewrite Hone; left).
  apply failures_elem in Hin as (i & message & Hi & Hcall).
  assert (dish ∈ failuresAsSettled style imagen dishes order) as Hin'.
  { apply failuresAsSettled_elem. exists i, message. split_and!; [|done..].
    apply Hall. by eapply lookup_lt_Some. }
  destruct (last (failuresAsSettled style imagen dishes order)) as [d|] eqn:Hlast.
  - apply last_Some_elem_of, failuresAsSettled_elem in Hlast
      as (j & message' & _ & Hj & Hcall').
    assert (d ∈ failures style imagen dishes) as Hd
      by (apply failures_elem; eauto).
    rewrite Hone in Hd. by apply list_elem_of_singleton in Hd as ->.
  - apply last_None in Hlast. rewrite Hlast in Hin'. by apply elem_of_nil in Hin'.
Qed.

Lemma batch_error style imagen dishes order lo :
  b_error (foldl (settleDish (promisesOf style imagen dishes))
             {| slots := replicate (length dishes) None;
                b_error := None;
                b_uuidCalls := lo |} order)
  = failureMessage <$> last (failuresAsSettled style imagen dishes order).
Proof.
  rewrite settle_error. cbn [b_error].
  replace (omap _ order) with (failuresAsSettled style imagen dishes order).
  - by destruct (last _).
  - unfold failuresAsSettled. apply list_omap_ext, Forall_Forall2_diag, Forall_forall.
    intros i _. rewrite promisesOf_lookup. by destruct (dishes !! i).
Qed.

(** The batch of a menu that has a dish, once every call has settled. *)
Lemma generate_settled imagen order w st :
  truthy (trim (App.menuText st)) = true →
  allSettle (dishesOf (App.menuText st)) order →
  ∃ hi newImages,
    handleGenerateImages imagen order w st =
      ({| uuidCalls := hi;
          imagenLog := imagenLog w ++
            (if falsy API_KEY then []
             else specRequest (App.selectedStyle st) <$> dishesOf (App.menuText st));
          geminiLog := geminiLog w |},
       {| App.menuText := App.menuText st;
          App.selectedStyle := App.selectedStyle st;
          App.generatedImages := newImages;
          App.loading := false;
          App.error :=
            failureMessage <$>
              last (failuresAsSettled (App.selectedStyle st) imagen
                      (dishesOf (App.menuText st)) order);
          App.editingImage := App.editingImage st |}) ∧
    uuidCalls w ≤ hi ∧
    Forall2 (λ success g, madeFrom success g ∧
                          ∃ k, uuidCalls w ≤ k < hi ∧ id g = uuidv4 k)
            (successes (App.selectedStyle st) imagen (dishesOf (App.menuText st)))
            newImages.
Proof.
  intros Hmenu Hall. rewrite handleGenerateImages_runs by done. cbv zeta.
  set (style := App.selectedStyle st). set (dishes := dishesOf (App.menuText st)).
  destruct (batch_results style imagen dishes order (uuidCalls w) Hall)
    as (results & Hslots & Hlen & Hcells).
  set (b := foldl _ _ order) in *.
  rewrite (proj2 (mapM_slots (slots b) results) Hslots).
  exists (b_uuidCalls b), (omap (λ result, result) results). split_and!.
  - unfold b. by rewrite batch_error.
  - apply (settle_calls _ order {| slots := replicate (length dishes) None;
                                   b_error := None;
                                   b_uuidCalls := uuidCalls w |}).
  - apply omap_Forall2, Forall2_same_length_lookup_2.
    { by rewrite length_imap. }
    intros i x result Hx Hr. rewrite list_lookup_imap in Hx.
    destruct (dishes !! i) as [dish|] eqn:Hi; simpl in Hx; [|done].
    injection Hx as [= <-].
    specialize (Hcells i dish result Hi Hr). unfold settledAs in Hcells. cbn in Hcells.
    destruct (callOutcome style imagen i dish) as [bytes|message].
    + destruct Hcells as (k & Hk & [= ->]). split; [|by exists k].
      by repeat split.
    + by injection Hcells as [= ->].
Qed.

(** Whatever the order and however many calls have settled, the session
    the batch leaves holds only images as the callbacks make them. *)
Lemma generate_fresh imagen order w st g :
  truthy (trim (App.menuText st)) = true →
  g ∈ App.generatedImages (handleGenerateImages imagen order w st).2 →
  ∃ k dish bytes,
    uuidCalls w ≤ k < uuidCalls (handleGenerateImages imagen order w st).1 ∧
    g = {| id := uuidv4 k;
           dishName := dish;
           imageUrl := lit "data:image/jpeg;base64," ++ bytes;
           originalPrompt := dish;
           editHistory := [] |}.
Proof.
  intros Hmenu. rewrite handleGenerateImages_runs by done. cbv zeta. cbn.
  set (b0 := {| slots := _; b_error := None; b_uuidCalls := uuidCalls w |}).
  set (promises := promisesOf _ _ _).
  pose proof (settle_cellsFresh promises (uuidCalls w) order b0 (le_n _)
                (cellsFresh_replicate _ _ _)) as Hfresh.
  destruct (mapM _ _) as [results|] eqn:Hresults; [|by intros ?%elem_of_nil].
  apply mapM_slots in Hresults.
  intros (r & [i Hi]%list_elem_of_lookup & ->)%list_elem_of_omap.
  apply (Hfresh i). by rewrite Hresults, list_lookup_fmap, Hi.
Qed.

Lemma generate_NoDup imagen order w st :
  truthy (trim (App.menuText st)) = true →
  NoDup (id <$> App.generatedImages (handleGenerateImages imagen order w st).2).
Proof using uuidv4_unique.
  intros Hmenu. rewrite handleGenerateImages_runs by done. cbv zeta. cbn.
  set (b0 := {| slots := _; b_error := None; b_uuidCalls := uuidCalls w |}).
  set (promises := promisesOf _ _ _).
  pose proof (settle_cellsDistinct promises (uuidCalls w) order b0 (le_n _)
                (cellsFresh_replicate _ _ _) (cellsDistinct_replicate _)) as Hinj.
  destruct (mapM _ _) as [results|] eqn:Hresults; [|constructor].
  apply mapM_slots in Hresults. rewrite Hresults in Hinj. by apply cells_NoDup.
Qed.

Lemma generate_calls imagen order w st :
  uuidCalls w ≤ uuidCalls (handleGenerateImages imagen order w st).1.
Proof.
  destruct (truthy (trim (App.menuText st))) eqn:Hmenu.
  - rewrite handleGenerateImages_runs by done. cbv zeta. cbn.
    apply (settle_calls _ order {| slots := _; b_error := None;
                                   b_uuidCalls := uuidCalls w |}).
  - by rewrite handleGenerateImages_rejects.
Qed.

(* ------------------------------------------------------------------- *)
(** ** Batch generation: the properties of the specification *)
(* ------------------------------------------------------------------- *)

(** C1. For a menu that has a dish and any style, once every generation
    call has settled the handler has run to its end and the session is
    made of exactly the successful results, in the order of the menu
    lines whatever the order in which the calls settled; each entry is a
    new tracked image whose label and original prompt are the dish text,
    whose payload is the returned image as a JPEG data URI and whose edit
    history is empty; the identifiers are drawn from [uuidv4] during the
    batch and no two are the same.  The session is this list whatever the
    session before was, and is empty when no call succeeded. *)
Theorem generated_session_in_menu_order imagen order w st :
  truthy (trim (App.menuText st)) = true →
  allSettle (dishesOf (App.menuText st)) order →
  let made := successes (App.selectedStyle st) imagen (dishesOf (App.menuText st)) in
  let w' := (handleGenerateImages imagen order w st).1 in
  let st' := (handleGenerateImages imagen order w st).2 in
  App.loading st' = false ∧
  Forall2 madeFrom made (App.generatedImages st') ∧
  (made = [] → App.generatedImages st' = []) ∧
  NoDup (id <$> App.generatedImages st') ∧
  (∀ g, g ∈ App.generatedImages st' →
     ∃ k, uuidCalls w ≤ k < uuidCalls w' ∧ id g = uuidv4 k).
Proof using uuidv4_unique.
  intros Hmenu Hall made w' st'.
  pose proof (generate_NoDup imagen order w st Hmenu) as Hnodup.
  destruct (generate_settled imagen order w st Hmenu Hall)
    as (hi & newImages & Hrun & Hhi & Hmade).
  subst w' st'. rewrite Hrun in *. cbn in *.
  assert (Forall2 madeFrom made newImages) as Hmade'.
  { eapply Forall2_impl; [exact Hmade|]. by intros ?? [? _]. }
  split_and!; try done.
  - intros Hnone. rewrite Hnone in Hmade'. by inversion Hmade'.
  - intros g [i Hg]%list_elem_of_lookup.
    destruct (Forall2_lookup_r _ _ _ _ _ Hmade Hg) as (success & _ & _ & Hid).
    done.
Qed.

(** C3, as the code has it.  For a menu that has a dish, once every call
    has settled: a failed call takes nothing from the session, which
    holds exactly the successful dishes, in the order of the menu lines,
    each with its label, its payload and an empty history, so that
    successes and failures together are all the dishes; the [error] cell
    holds one
    message at most, that of the failed dish whose call settled last, and
    nothing when no call failed; when exactly one dish failed the one
    message shown names that dish, and with three dishes the session then
    has exactly two entries. *)
Theorem batch_reports_last_failure imagen order w st :
  truthy (trim (App.menuText st)) = true →
  allSettle (dishesOf (App.menuText st)) order →
  let style := App.selectedStyle st in
  let dishes := dishesOf (App.menuText st) in
  let st' := (handleGenerateImages imagen order w st).2 in
  Forall2 madeFrom (successes style imagen dishes) (App.generatedImages st') ∧
  App.loading st' = false ∧
  length (App.generatedImages st') = length (successes style imagen dishes) ∧
  length (App.generatedImages st') + length (failures style imagen dishes)
    = length dishes ∧
  App.error st'
    = failureMessage <$> last (failuresAsSettled style imagen dishes order) ∧
  length (reportedErrors st') ≤ 1 ∧
  (failures style imagen dishes = [] → reportedErrors st' = []) ∧
  (∀ dish, failures style imagen dishes = [dish] →
     reportedErrors st' = [failureMessage dish]) ∧
  (length dishes = 3 → length (failures style imagen dishes) = 1 →
     length (App.generatedImages st') = 2).
Proof.
  intros Hmenu Hall style dishes st'.
  destruct (generate_settled imagen order w st Hmenu Hall)
    as (hi & newImages & Hrun & Hhi & Hmade).
  subst st'. rewrite Hrun. cbn.
  pose proof (Forall2_length _ _ _ Hmade) as Hlen.
  pose proof (successes_failures_length style imagen dishes) as Hsum.
  fold style dishes in Hlen, Hmade |- *.
  unfold reportedErrors. cbn. split_and!.
  - eapply Forall2_impl; [exact Hmade|]. by intros ?? [? _].
  - done.
  - done.
  - lia.
  - done.
  - destruct (last _); simpl; lia.
  - intros Hnone.
    destruct (last (failuresAsSettled style imagen dishes order)) as [d|] eqn:Hlast;
      [|done].
    apply last_Some_elem_of, failuresAsSettled_elem in Hlast
      as (j & message & _ & Hj & Hcall).
    assert (d ∈ failures style imagen dishes) as Hd
      by (apply failures_elem; eauto).
    rewrite Hnone in Hd. by apply elem_of_nil in Hd.
  - intros dish Hone. by rewrite (last_failure_single _ _ _ _ dish).
  - lia.
Qed.

(** C5. With an API key provisioned, for every menu text and every style
    the batch sends exactly one request for each trimmed, non-empty line,
    in the order of the lines: the prompt of each is the prefix of the
    style, as the table of the specification has it, followed by the dish
    text, and each carries the aspect ratio of the style (rustic/dark
    4:3, bright/modern 16:9, social-media top-down 1:1). *)
Theorem batch_sends_one_request_per_dish imagen order w st :
  falsy API_KEY = false →
  let dishes := dishesOf (App.menuText st) in
  let w' := (handleGenerateImages imagen order w st).1 in
  imagenLog w' = imagenLog w ++ (specRequest (App.selectedStyle st) <$> dishes) ∧
  length (imagenLog w') = length (imagenLog w) + length dishes ∧
  geminiLog w' = geminiLog w.
Proof.
  intros Hkey dishes w'. subst w'.
  destruct (truthy (trim (App.menuText st))) eqn:Hmenu.
  - rewrite handleGenerateImages_runs by done. cbv zeta. cbn. rewrite Hkey.
    by rewrite length_app, length_fmap.
  - rewrite handleGenerateImages_rejects by done. cbn.
    apply truthy_nil_iff, dishesOf_nil_trim in Hmenu.
    subst dishes. rewrite Hmenu. cbn. by rewrite app_nil_r, Nat.add_0_r.
Qed.

(** C8. For a menu text with no non-empty trimmed line, that is an empty
    or all-white-space text, batch generation fails with the message
    asking for menu items and does nothing else: no request is sent, no
    identifier drawn, and the session stays as it was. *)
Theorem empty_menu_rejected imagen order w st :
  dishesOf (App.menuText st) = [] →
  forallb isTrimmable (App.menuText st) = true ∧
  handleGenerateImages imagen order w st =
    (w, {| App.menuText := App.menuText st;
           App.selectedStyle := App.selectedStyle st;
           App.generatedImages := App.generatedImages st;
           App.loading := App.loading st;
           App.error := Some (lit "Please enter your menu items.");
           App.editingImage := App.editingImage st |}).
Proof.
  intros Hnone. split; [by apply dishesOf_nil_iff|].
  apply handleGenerateImages_rejects, truthy_nil_iff, dishesOf_nil_trim, Hnone.
Qed.

(* ------------------------------------------------------------------- *)
(** ** Editing *)
(* ------------------------------------------------------------------- *)

Lemma handleEdit_empty image gemini m :
  trim (Modal.editPrompt m) = [] →
  handleEdit image gemini m =
  ([], {| Modal.editPrompt := Modal.editPrompt m;
          Modal.editingImage := Modal.editingImage m;
          Modal.error := Some (lit "Please enter an edit prompt.");
          Modal.currentEditedImageUrl := Modal.currentEditedImageUrl m |},
   None).
Proof. intros Hp. unfold handleEdit. by rewrite Hp. Qed.

Lemma handleEdit_success image gemini m base64Data mimeType log data :
  truthy (trim (Modal.editPrompt m)) = true →
  decodeFromDataUri (Modal.currentEditedImageUrl m) = Some (base64Data, mimeType) →
  editFoodImage base64Data mimeType (Modal.editPrompt m) gemini
    = (log, Fulfilled data) →
  handleEdit image gemini m =
  (log,
   {| Modal.editPrompt := [];
      Modal.editingImage := false;
      Modal.error := None;
      Modal.currentEditedImageUrl := encodeToDataUri data mimeType |},
   Some {| id := id image;
           dishName := dishName image;
           imageUrl := encodeToDataUri data mimeType;
           originalPrompt := originalPrompt image;
           editHistory :=
             editHistory image ++
             [ {| Edit.prompt := Modal.editPrompt m;
                  Edit.imageUrl := encodeToDataUri data mimeType |} ] |}).
Proof.
  intros Hp Hdecode Hedit. unfold handleEdit. by rewrite Hp, Hdecode, Hedit.
Qed.

Lemma handleEdit_failure image gemini m base64Data mimeType log reason :
  truthy (trim (Modal.editPrompt m)) = true →
  decodeFromDataUri (Modal.currentEditedImageUrl m) = Some (base64Data, mimeType) →
  editFoodImage base64Data mimeType (Modal.editPrompt m) gemini
    = (log, Rejected reason) →
  handleEdit image gemini m =
  (log,
   {| Modal.editPrompt := Modal.editPrompt m;
      Modal.editingImage := false;
      Modal.error := Some (lit "Failed to edit image: " ++ reason);
      Modal.currentEditedImageUrl := Modal.currentEditedImageUrl m |},
   None).
Proof.
  intros Hp Hdecode Hedit. unfold handleEdit. by rewrite Hp, Hdecode, Hedit.
Qed.

(** A payload that does not decode fails the edit before any request. *)
Lemma handleEdit_corrupt image gemini m :
  truthy (trim (Modal.editPrompt m)) = true →
  decodeFromDataUri (Modal.currentEditedImageUrl m) = None →
  handleEdit image gemini m =
  ([],
   {| Modal.editPrompt := Modal.editPrompt m;
      Modal.editingImage := false;
      Modal.error :=
        Some (lit "Failed to edit image: "
                ++ lit "Could not extract image data for editing.");
      Modal.currentEditedImageUrl := Modal.currentEditedImageUrl m |},
   None).
Proof. intros Hp Hdecode. unfold handleEdit. by rewrite Hp, Hdecode. Qed.

(** What an edit that calls [onImageEdited] has done. *)
Lemma handleEdit_updated image gemini m log m' updatedImage :
  handleEdit image gemini m = (log, m', Some updatedImage) →
  ∃ base64Data mimeType data,
    truthy (trim (Modal.editPrompt m)) = true ∧
    decodeFromDataUri (Modal.currentEditedImageUrl m) = Some (base64Data, mimeType) ∧
    editFoodImage base64Data mimeType (Modal.editPrompt m) gemini
      = (log, Fulfilled data) ∧
    Modal.currentEditedImageUrl m' = encodeToDataUri data mimeType ∧
    updatedImage =
      {| id := id image;
         dishName := dishName image;
         imageUrl := encodeToDataUri data mimeType;
         originalPrompt := originalPrompt image;
         editHistory :=
           editHistory image ++
           [ {| Edit.prompt := Modal.editPrompt m;
                Edit.imageUrl := encodeToDataUri data mimeType |} ] |}.
Proof.
  unfold handleEdit.
  destruct (truthy (trim (Modal.editPrompt m))) eqn:Hp; cbn [negb]; [|done].
  destruct (decodeFromDataUri _) as [[base64Data mimeType]|] eqn:Hdecode; [|done].
  destruct (editFoodImage _ _ _ _) as [log' [data|reason]] eqn:Hedit; [|done].
  intros [= <- <- <-]. by exists base64Data, mimeType, data.
Qed.

(** An edit that does not call [onImageEdited] leaves the image shown in
    the modal as it was. *)
Lemma handleEdit_not_updated image gemini m log m' :
  handleEdit image gemini m = (log, m', None) →
  Modal.currentEditedImageUrl m' = Modal.currentEditedImageUrl m ∧
  Modal.editPrompt m' = Modal.editPrompt m ∧
  is_Some (Modal.error m').
Proof.
  unfold handleEdit.
  destruct (truthy (trim (Modal.editPrompt m))); cbn [negb];
    [|by intros [= <- <-]].
  destruct (decodeFromDataUri _) as [[base64Data mimeType]|];
    [|by intros [= <- <-]].
  destruct (editFoodImage _ _ _ _) as [log' [data|reason]]; [done|].
  by intros [= <- <-].
Qed.

Lemma step_apply_edit ui image m gemini :
  App.editingImage (app ui) = Some image →
  modal ui = Some m →
  Modal.editingImage m = false →
  step ui (ClickApplyEdit gemini) =
  let '(log, m', updated) := handleEdit image gemini m in
  render {| uuidCalls := uuidCalls (world ui);
            imagenLog := imagenLog (world ui);
            geminiLog := geminiLog (world ui) ++ log |}
         match updated with
         | Some updatedImage => handleImageEdited updatedImage (app ui)
         | None => app ui
         end
         (Some m').
Proof. intros Himage Hmodal Hidle. cbn. by rewrite Himage, Hmodal, Hidle. Qed.

(** C2. For every tracked image and every edit prompt that is not empty
    once trimmed, when the payload shown decodes and the Edit Client
    succeeds with [data], the edit hands [onImageEdited] a new tracked
    image equal to the input but for the payload, now the data URI of
    [data], and the edit history, which has exactly one new entry, the
    prompt with that same payload, appended at its end; [id], label and
    original prompt are carried over, and the payload equals the result
    of the last history entry.  Edits chain: the application then holds
    the new image as the one being edited and the modal shows its
    payload, so the next edit starts from it, and decodes from it the
    data and media type just written whenever these hold no comma. *)
Theorem edit_success_extends_history image gemini m base64Data mimeType log data :
  truthy (trim (Modal.editPrompt m)) = true →
  decodeFromDataUri (Modal.currentEditedImageUrl m) = Some (base64Data, mimeType) →
  editFoodImage base64Data mimeType (Modal.editPrompt m) gemini
    = (log, Fulfilled data) →
  let newImageUrl := encodeToDataUri data mimeType in
  let entry := {| Edit.prompt := Modal.editPrompt m; Edit.imageUrl := newImageUrl |} in
  let updatedImage :=
    {| id := id image;
       dishName := dishName image;
       imageUrl := newImageUrl;
       originalPrompt := originalPrompt image;
       editHistory := editHistory image ++ [entry] |} in
  let m' :=
    {| Modal.editPrompt := [];
       Modal.editingImage := false;
       Modal.error := None;
       Modal.currentEditedImageUrl := newImageUrl |} in
  handleEdit image gemini m = (log, m', Some updatedImage) ∧
  last (editHistory updatedImage) = Some entry ∧
  imageUrl updatedImage = Edit.imageUrl entry ∧
  length (editHistory updatedImage) = S (length (editHistory image)) ∧
  (∀ ui, App.editingImage (app ui) = Some image → modal ui = Some m →
         Modal.editingImage m = false →
         let ui' := step ui (ClickApplyEdit gemini) in
         App.editingImage (app ui') = Some updatedImage ∧
         modal ui' = Some m' ∧
         App.generatedImages (app ui') =
           (λ img, if decide (id img = id image) then updatedImage else img)
             <$> App.generatedImages (app ui)) ∧
  (lacks comma mimeType = true → lacks comma data = true →
     decodeFromDataUri newImageUrl = Some (data, mimeType)).
Proof.
  intros Hp Hdecode Hedit newImageUrl entry updatedImage m'.
  pose proof (handleEdit_success image gemini m _ _ _ _ Hp Hdecode Hedit) as Hrun.
  split_and!.
  - done.
  - apply last_snoc.
  - done.
  - cbn. rewrite length_app. cbn. lia.
  - intros ui Himage Hmodal Hidle ui'. subst ui'.
    rewrite (step_apply_edit ui image m) by done. rewrite Hrun. by cbn.
  - intros Hmime Hdata.
    apply decodeFromDataUri_Some in Hdecode as (_ & Hm & _ & Hne).
    destruct (mimeTypeOf_lacks _ _ Hm) as [Hsemi Hcolon].
    apply editFoodImage_Fulfilled in Hedit as [Hd _].
    by apply decode_encode_valid.
Qed.

(** C4. For every tracked image and every edit prompt that is not empty
    once trimmed, when the Edit Client fails with a reason, be it that no
    image came back or a service error, the edit ends with the error
    [Failed to edit image:] followed by the reason; [onImageEdited] is
    not called, the modal keeps its prompt and the payload it shows, and
    the state of the application, its session and the image being edited
    with their edit histories, is what it was before the call. *)
Theorem edit_failure_leaves_image image gemini m base64Data mimeType log reason :
  truthy (trim (Modal.editPrompt m)) = true →
  decodeFromDataUri (Modal.currentEditedImageUrl m) = Some (base64Data, mimeType) →
  editFoodImage base64Data mimeType (Modal.editPrompt m) gemini
    = (log, Rejected reason) →
  let m' :=
    {| Modal.editPrompt := Modal.editPrompt m;
       Modal.editingImage := false;
       Modal.error := Some (lit "Failed to edit image: " ++ reason);
       Modal.currentEditedImageUrl := Modal.currentEditedImageUrl m |} in
  handleEdit image gemini m = (log, m', None) ∧
  (∀ ui, App.editingImage (app ui) = Some image → modal ui = Some m →
         Modal.editingImage m = false →
         let ui' := step ui (ClickApplyEdit gemini) in
         app ui' = app ui ∧ modal ui' = Some m').
Proof.
  intros Hp Hdecode Hedit m'.
  pose proof (handleEdit_failure image gemini m _ _ _ _ Hp Hdecode Hedit) as Hrun.
  split; [done|].
  intros ui Himage Hmodal Hidle ui'. subst ui'.
  rewrite (step_apply_edit ui image m) by done. rewrite Hrun.
  unfold render. cbn. by rewrite Himage.
Qed.

(** C9. For every tracked image and every edit prompt that is empty or
    white space only, the edit fails with the message asking for a
    prompt: no request is sent to the Edit Client, [onImageEdited] is not
    called, and the application, with the image, is as it was. *)
Theorem empty_edit_prompt_rejected image gemini m :
  trim (Modal.editPrompt m) = [] →
  let m' :=
    {| Modal.editPrompt := Modal.editPrompt m;
       Modal.editingImage := Modal.editingImage m;
       Modal.error := Some (lit "Please enter an edit prompt.");
       Modal.currentEditedImageUrl := Modal.currentEditedImageUrl m |} in
  forallb isTrimmable (Modal.editPrompt m) = true ∧
  handleEdit image gemini m = ([], m', None) ∧
  (∀ ui, App.editingImage (app ui) = Some image → modal ui = Some m →
         Modal.editingImage m = false →
         let ui' := step ui (ClickApplyEdit gemini) in
         app ui' = app ui ∧ modal ui' = Some m' ∧
         geminiLog (world ui') = geminiLog (world ui)).
Proof.
  intros Hp m'. pose proof (handleEdit_empty image gemini m Hp) as Hrun.
  split_and!; [by apply trim_nil_iff|done|].
  intros ui Himage Hmodal Hidle ui'. subst ui'.
  rewrite (step_apply_edit ui image m) by done. rewrite Hrun.
  unfold render. cbn. by rewrite Himage, app_nil_r.
Qed.

(* ------------------------------------------------------------------- *)
(** ** The media type of a payload over the life of an image *)
(* ------------------------------------------------------------------- *)

(** Batch generation writes the header [image/jpeg], whatever the bytes
    are. *)
Lemma jpegHeader_generated bytes :
  jpegHeader (lit "data:image/jpeg;base64," ++ bytes).
Proof. unfold jpegHeader. rewrite jpeg_template. by apply mimeTypeOf_encode. Qed.

Lemma jpegImage_generated k dish bytes :
  jpegImage {| id := uuidv4 k;
               dishName := dish;
               imageUrl := lit "data:image/jpeg;base64," ++ bytes;
               originalPrompt := dish;
               editHistory := [] |}.
Proof. split; [apply jpegHeader_generated|constructor]. Qed.

(** A successful edit keeps the header of the payload it started from. *)
Lemma handleEdit_header image gemini m log m' updatedImage :
  handleEdit image gemini m = (log, m', Some updatedImage) →
  mimeTypeOf (imageUrl updatedImage) = mimeTypeOf (Modal.currentEditedImageUrl m) ∧
  Modal.currentEditedImageUrl m' = imageUrl updatedImage ∧
  editHistory updatedImage =
    editHistory image ++
    [ {| Edit.prompt := Modal.editPrompt m;
         Edit.imageUrl := imageUrl updatedImage |} ].
Proof.
  intros (base64Data & mimeType & data & _ & Hdecode & _ & Hurl & ->)%handleEdit_updated.
  apply decodeFromDataUri_Some in Hdecode as (_ & Hmime & _). cbn.
  split_and!; [|done..]. by apply mimeTypeOf_reencode.
Qed.

Lemma generate_editingImage imagen order w st :
  App.editingImage (handleGenerateImages imagen order w st).2 = App.editingImage st.
Proof.
  unfold handleGenerateImages.
  destruct (negb _); [done|]. cbv zeta. by destruct (mapM _ _).
Qed.

Lemma generate_jpeg imagen order w st :
  Forall jpegImage (heldImages st) →
  Forall jpegImage (heldImages (handleGenerateImages imagen order w st).2).
Proof.
  intros Hold. destruct (truthy (trim (App.menuText st))) eqn:Hmenu.
  - unfold heldImages in *. rewrite generate_editingImage.
    apply Forall_app in Hold as [_ Hediting]. apply Forall_app. split; [|done].
    apply Forall_forall. intros g Hg.
    destruct (generate_fresh imagen order w st g Hmenu Hg) as (k & dish & bytes & _ & ->).
    apply jpegImage_generated.
  - by rewrite handleGenerateImages_rejects.
Qed.

Lemma HeadersOk_render w st m :
  Forall jpegImage (heldImages st) →
  (∀ m0, m = Some m0 → jpegHeader (Modal.currentEditedImageUrl m0)) →
  HeadersOk (render w st m).
Proof.
  intros Himages Hmodal. split; [done|].
  intros m'. unfold render. cbn.
  destruct (App.editingImage st) as [image|] eqn:Hediting; [|done].
  intros [= <-]. destruct m as [m0|]; cbn; [by apply Hmodal|].
  unfold heldImages in Himages. rewrite Hediting in Himages.
  apply Forall_app in Himages as [_ Himage]. by inversion_clear Himage as [|?? []].
Qed.

Lemma HeadersOk_initial : HeadersOk initial.
Proof. split; [constructor|done]. Qed.

Lemma HeadersOk_step ui ev : HeadersOk ui → HeadersOk (step ui ev).
Proof.
  intros Hok. pose proof Hok as [Himages Hmodal]. unfold images in Himages.
  destruct ev as [text|style|imagen order|card|text|gemini|]; cbn.
  - destruct (App.loading (app ui)); [done|]. by apply HeadersOk_render.
  - destruct (App.loading (app ui)); [done|]. by apply HeadersOk_render.
  - destruct (App.loading (app ui)); [done|].
    pose proof (generate_jpeg imagen order (world ui) (app ui) Himages) as Hnew.
    destruct (handleGenerateImages _ _ _ _) as [w st]. by apply HeadersOk_render.
  - destruct (App.generatedImages (app ui) !! card) as [image|] eqn:Hcard; [|done].
    apply HeadersOk_render; [|done]. unfold heldImages in *. cbn.
    apply Forall_app in Himages as [Hsession _]. apply Forall_app. split; [done|].
    constructor; [|constructor]. by eapply Forall_lookup_1.
  - destruct (modal ui) as [m|] eqn:Hm; [|done].
    destruct (Modal.editingImage m); [done|].
    apply HeadersOk_render; [done|]. intros ? [= <-]. cbn. by apply Hmodal.
  - destruct (App.editingImage (app ui)) as [image|] eqn:Hediting; [|done].
    destruct (modal ui) as [m|] eqn:Hm; [|done].
    destruct (Modal.editingImage m); [done|].
    destruct (handleEdit image gemini m) as [[log m'] [updatedImage|]] eqn:Hedit.
    + apply handleEdit_header in Hedit as (Hmime & Hurl & Hhistory).
      assert (jpegHeader (imageUrl updatedImage)) as Hheader.
      { unfold jpegHeader. rewrite Hmime. by apply Hmodal. }
      assert (jpegImage updatedImage) as Hupdated.
      { split; [done|]. rewrite Hhistory. apply Forall_app. split.
        - unfold heldImages in Himages. rewrite Hediting in Himages.
          apply Forall_app in Himages as [_ Himage].
          by inversion_clear Himage as [|?? []].
        - constructor; [done|constructor]. }
      apply HeadersOk_render.
      * unfold heldImages in *. cbn.
        apply Forall_app in Himages as [Hsession _]. apply Forall_app. split.
        -- apply Forall_fmap. eapply Forall_impl; [exact Hsession|].
           intros img Himg. cbn. by destruct (decide _).
        -- constructor; [done|constructor].
      * intros ? [= <-]. by rewrite Hurl.
    + apply handleEdit_not_updated in Hedit as (Hurl & _).
      apply HeadersOk_render; [done|]. intros ? [= <-]. rewrite Hurl. by apply Hmodal.
  - destruct (modal ui) as [m|] eqn:Hm; [|done].
    destruct (Modal.editingImage m); [done|].
    apply HeadersOk_render; [|done]. unfold heldImages in *. cbn.
    apply Forall_app in Himages as [Hsession _]. by rewrite app_nil_r.
Qed.

Lemma HeadersOk_run ui events : HeadersOk ui → HeadersOk (run ui events).
Proof.
  revert ui. induction events as [|ev events IH]; intros ui Hok; [done|].
  apply IH. by apply HeadersOk_step.
Qed.

(** C10. The media type in the header of a payload never changes over the
    life of a tracked image.  Batch generation writes [image/jpeg]
    whatever the service returned; a successful edit writes into the new
    payload the media type read from the payload it was given, the
    result depending on the response only through the data returned; so
    in every state the application reaches, every payload it holds, of
    the session, of the image being edited, of their edit histories and
    of the modal, has the header [image/jpeg]. *)
Theorem media_type_header_never_changes :
  (∀ bytes,
     mimeTypeOf (lit "data:image/jpeg;base64," ++ bytes) = Some (lit "image/jpeg")) ∧
  (∀ imagen order w st g,
     truthy (trim (App.menuText st)) = true →
     g ∈ App.generatedImages (handleGenerateImages imagen order w st).2 →
     mimeTypeOf (imageUrl g) = Some (lit "image/jpeg")) ∧
  (∀ image gemini m log m' updatedImage,
     handleEdit image gemini m = (log, m', Some updatedImage) →
     mimeTypeOf (imageUrl updatedImage)
       = mimeTypeOf (Modal.currentEditedImageUrl m) ∧
     ∃ base64Data mimeType data,
       decodeFromDataUri (Modal.currentEditedImageUrl m) = Some (base64Data, mimeType) ∧
       editFoodImage base64Data mimeType (Modal.editPrompt m) gemini
         = (log, Fulfilled data) ∧
       imageUrl updatedImage = encodeToDataUri data mimeType) ∧
  (∀ events, HeadersOk (run initial events)).
Proof.
  split_and!.
  - apply jpegHeader_generated.
  - intros imagen order w st g Hmenu Hg.
    destruct (generate_fresh imagen order w st g Hmenu Hg) as (k & dish & bytes & _ & ->).
    apply jpegHeader_generated.
  - intros image gemini m log m' updatedImage Hedit. split.
    + by apply handleEdit_header in Hedit as (? & _).
    + apply handleEdit_updated in Hedit
        as (base64Data & mimeType & data & _ & ? & ? & _ & ->).
      by exists base64Data, mimeType, data.
  - intros events. apply HeadersOk_run, HeadersOk_initial.
Qed.

(* ------------------------------------------------------------------- *)
(** ** Identity over the life of an image *)
(* ------------------------------------------------------------------- *)

Lemma NoDup_fmap_eq {A B} (f : A → B) (l : list A) x y :
  NoDup (f <$> l) → x ∈ l → y ∈ l → f x = f y → x = y.
Proof.
  induction l as [|z l IH]; [by intros _ ?%elem_of_nil|].
  cbn. intros [Hz Hl]%NoDup_cons [->|Hx]%elem_of_cons [->|Hy]%elem_of_cons Heq;
    try done.
  - destruct Hz. rewrite Heq. by apply list_elem_of_fmap_2.
  - destruct Hz. rewrite <- Heq. by apply list_elem_of_fmap_2.
  - by apply IH.
Qed.

(** Replacing an entry by an image with its identifier leaves the
    identifiers of the session as they were. *)
Lemma handleImageEdited_ids updatedImage st :
  id <$> App.generatedImages (handleImageEdited updatedImage st)
  = id <$> App.generatedImages st.
Proof.
  cbn. rewrite <- list_fmap_compose. apply list_fmap_ext.
  intros i img _. cbn. by destruct (decide _).
Qed.

Lemma step_calls ui ev : uuidCalls (world ui) ≤ uuidCalls (world (step ui ev)).
Proof.
  destruct ev as [text|style|imagen order|card|text|gemini|]; cbn.
  - by destruct (App.loading (app ui)).
  - by destruct (App.loading (app ui)).
  - destruct (App.loading (app ui)); [done|].
    pose proof (generate_calls imagen order (world ui) (app ui)).
    by destruct (handleGenerateImages _ _ _ _).
  - by destruct (App.generatedImages (app ui) !! card).
  - destruct (modal ui) as [m|]; [|done]. by destruct (Modal.editingImage m).
  - destruct (App.editingImage (app ui)), (modal ui) as [m|]; try done.
    destruct (Modal.editingImage m); [done|].
    by destruct (handleEdit _ _ _) as [[? ?] ?].
  - destruct (modal ui) as [m|]; [|done]. by destruct (Modal.editingImage m).
Qed.

(** Where an image held after an event comes from: it continues an image
    held before, with its identifier, label and original prompt, or the
    event was a batch and it is a new entry of the session. *)
Lemma step_ancestor ui ev g' :
  g' ∈ images (step ui ev) →
  (∃ g, g ∈ images ui ∧ id g' = id g ∧
        originalPrompt g' = originalPrompt g ∧ dishName g' = dishName g) ∨
  (g' ∈ App.generatedImages (app (step ui ev)) ∧
   ∃ k dish bytes,
     uuidCalls (world ui) ≤ k < uuidCalls (world (step ui ev)) ∧
     g' = {| id := uuidv4 k;
             dishName := dish;
             imageUrl := lit "data:image/jpeg;base64," ++ bytes;
             originalPrompt := dish;
             editHistory := [] |}).
Proof.
  assert (∀ g, g ∈ images ui →
    ∃ g0, g0 ∈ images ui ∧ id g = id g0 ∧
          originalPrompt g = originalPrompt g0 ∧ dishName g = dishName g0)
    as Hsame by eauto.
  unfold images in *.
  destruct ev as [text|style|imagen order|card|text|gemini|]; cbn.
  - destruct (App.loading (app ui)); left; by apply Hsame.
  - destruct (App.loading (app ui)); left; by apply Hsame.
  - destruct (App.loading (app ui)); [left; by apply Hsame|].
    destruct (truthy (trim (App.menuText (app ui)))) eqn:Hmenu.
    + pose proof (generate_fresh imagen order (world ui) (app ui) g' Hmenu) as Hfresh.
      pose proof (generate_editingImage imagen order (world ui) (app ui)) as Hediting.
      destruct (handleGenerateImages _ _ _ _) as [w st]. cbn in *.
      unfold heldImages. rewrite Hediting. intros [Hnew|Hold]%elem_of_app.
      * right. split; [done|]. by apply Hfresh.
      * left. apply Hsame. unfold heldImages. apply elem_of_app. by right.
    + rewrite handleGenerateImages_rejects by done. cbn. intros Hg. left.
      by apply Hsame.
  - destruct (App.generatedImages (app ui) !! card) as [image|] eqn:Hcard;
      [|left; by apply Hsame].
    unfold heldImages. cbn. intros [Hg|Hg]%elem_of_app; left; apply Hsame;
      unfold heldImages; apply elem_of_app; left; [done|].
    apply list_elem_of_singleton in Hg as ->. by eapply list_elem_of_lookup_2.
  - destruct (modal ui) as [m|]; [|left; by apply Hsame].
    destruct (Modal.editingImage m); left; by apply Hsame.
  - destruct (App.editingImage (app ui)) as [image|] eqn:Hediting;
      [|left; by apply Hsame].
    destruct (modal ui) as [m|]; [|left; by apply Hsame].
    destruct (Modal.editingImage m); [left; by apply Hsame|].
    assert (image ∈ heldImages (app ui)) as Himage.
    { unfold heldImages. rewrite Hediting. apply elem_of_app. right. left. }
    destruct (handleEdit image gemini m) as [[log m'] [updatedImage|]] eqn:Hedit;
      [|left; by apply Hsame].
    apply handleEdit_updated in Hedit
      as (base64Data & mimeType & data & _ & _ & _ & _ & Hupdated).
    assert (∃ g0, g0 ∈ heldImages (app ui) ∧ id updatedImage = id g0 ∧
                  originalPrompt updatedImage = originalPrompt g0 ∧
                  dishName updatedImage = dishName g0) as Hcontinues
      by (exists image; by rewrite Hupdated).
    unfold heldImages. cbn. intros Hheld. left.
    apply elem_of_app in Hheld as [(img & -> & Himg)%list_elem_of_fmap|Hg].
    + destruct (decide _); [done|].
      apply Hsame. unfold heldImages. apply elem_of_app. by left.
    + by apply list_elem_of_singleton in Hg as ->.
  - destruct (modal ui) as [m|]; [|left; by apply Hsame].
    destruct (Modal.editingImage m); [left; by apply Hsame|].
    unfold heldImages. cbn. rewrite app_nil_r. intros Hg. left. apply Hsame.
    unfold heldImages. apply elem_of_app. by left.
Qed.

Lemma step_session_NoDup ui ev :
  NoDup (id <$> App.generatedImages (app ui)) →
  NoDup (id <$> App.generatedImages (app (step ui ev))).
Proof using uuidv4_unique.
  intros Hold.
  destruct ev as [text|style|imagen order|card|text|gemini|]; cbn.
  - by destruct (App.loading (app ui)).
  - by destruct (App.loading (app ui)).
  - destruct (App.loading (app ui)); [done|].
    destruct (truthy (trim (App.menuText (app ui)))) eqn:Hmenu.
    + pose proof (generate_NoDup imagen order (world ui) (app ui) Hmenu).
      by destruct (handleGenerateImages _ _ _ _).
    + by rewrite handleGenerateImages_rejects.
  - by destruct (App.generatedImages (app ui) !! card).
  - destruct (modal ui) as [m|]; [|done]. by destruct (Modal.editingImage m).
  - destruct (App.editingImage (app ui)), (modal ui) as [m|]; try done.
    destruct (Modal.editingImage m); [done|].
    destruct (handleEdit _ _ _) as [[log m'] [updatedImage|]]; [|done].
    cbn [app render]. by rewrite handleImageEdited_ids.
  - destruct (modal ui) as [m|]; [|done]. by destruct (Modal.editingImage m).
Qed.

Lemma IdsOk_initial : IdsOk initial.
Proof.
  split.
  - by intros g ?%elem_of_nil.
  - by intros g h ?%elem_of_nil.
  - constructor.
Qed.

Lemma IdsOk_step ui ev : IdsOk ui → IdsOk (step ui ev).
Proof using uuidv4_unique.
  intros [Hdrawn Horigin Hunique].
  pose proof (step_calls ui ev) as Hcalls.
  pose proof (step_session_NoDup ui ev Hunique) as Hunique'.
  split; [| |done].
  - intros g' [(g & Hg & Hid & _)|(_ & k & ? & ? & Hk & ->)]%step_ancestor.
    + destruct (Hdrawn g Hg) as (k & Hk & Hgk). exists k. split; [lia|congruence].
    + exists k. split; [lia|done].
  - intros g' h' Hg' Hh' Heq.
    pose proof Hg' as [(g & Hg & Hgid & Hgp & Hgn)|(Hgs & kg & ? & ? & Hkg & Hgeq)]%step_ancestor;
    pose proof Hh' as [(h & Hh & Hhid & Hhp & Hhn)|(Hhs & kh & ? & ? & Hkh & Hheq)]%step_ancestor.
    + destruct (Horigin g h Hg Hh) as [? ?]; [congruence|]. split; congruence.
    + exfalso. destruct (Hdrawn g Hg) as (k & Hk & Hgk).
      rewrite Hgid, Hgk, Hheq in Heq. apply uuidv4_unique in Heq. lia.
    + exfalso. destruct (Hdrawn h Hh) as (k & Hk & Hhk).
      rewrite Hhid, Hhk, Hgeq in Heq. apply uuidv4_unique in Heq. lia.
    + by rewrite (NoDup_fmap_eq id _ g' h' Hunique' Hgs Hhs Heq).
Qed.

Lemma IdsOk_run ui events : IdsOk ui → IdsOk (run ui events).
Proof using uuidv4_unique.
  revert ui. induction events as [|ev events IH]; intros ui Hok; [done|].
  apply IH. by apply IdsOk_step.
Qed.

(** An entry of the session keeps its original prompt and its label for
    as long as its identifier is in the session. *)
Lemma step_keeps_origin ui ev g g' :
  IdsOk ui →
  g ∈ App.generatedImages (app ui) →
  g' ∈ App.generatedImages (app (step ui ev)) →
  id g' = id g →
  originalPrompt g' = originalPrompt g ∧ dishName g' = dishName g.
Proof using uuidv4_unique.
  intros [Hdrawn Horigin _] Hg Hg' Heq.
  assert (g ∈ images ui) as Hheld.
  { unfold images, heldImages. apply elem_of_app. by left. }
  assert (g' ∈ images (step ui ev)) as Hheld'.
  { unfold images, heldImages. apply elem_of_app. by left. }
  apply step_ancestor in Hheld'
    as [(g0 & Hg0 & Hid & Hp & Hn)|(_ & k & ? & ? & Hk & ->)].
  - destruct (Horigin g0 g Hg0 Hheld) as [? ?]; [congruence|]. split; congruence.
  - exfalso. destruct (Hdrawn g Hheld) as (k0 & Hk0 & Hgk).
    cbn in Heq. rewrite Hgk in Heq. apply uuidv4_unique in Heq. lia.
Qed.

(** C7. For every tracked image created by batch generation, the
    original prompt is the text the Generation Client was called with for
    it, the dish; and it does not change afterwards: an edit hands on the
    original prompt of the image it was given, and in every state the
    application reaches, whatever happens next, the entry of the session
    with a given identifier has the original prompt it had. *)
Theorem original_prompt_is_generation_text imagen order w st :
  truthy (trim (App.menuText st)) = true →
  allSettle (dishesOf (App.menuText st)) order →
  let made := successes (App.selectedStyle st) imagen (dishesOf (App.menuText st)) in
  let st' := (handleGenerateImages imagen order w st).2 in
  Forall2 (λ success g, originalPrompt g = success.1) made (App.generatedImages st') ∧
  (∀ image gemini m log m' updatedImage,
     handleEdit image gemini m = (log, m', Some updatedImage) →
     originalPrompt updatedImage = originalPrompt image) ∧
  (∀ events ev g g',
     g ∈ App.generatedImages (app (run initial events)) →
     g' ∈ App.generatedImages (app (step (run initial events) ev)) →
     id g' = id g →
     originalPrompt g' = originalPrompt g).
Proof using uuidv4_unique.
  intros Hmenu Hall made st'. split_and!.
  - destruct (generate_settled imagen order w st Hmenu Hall)
      as (hi & newImages & Hrun & _ & Hmade).
    subst st'. rewrite Hrun. cbn.
    eapply Forall2_impl; [exact Hmade|]. by intros ?? [(_ & ? & _) _].
  - intros image gemini m log m' updatedImage
      (? & ? & ? & _ & _ & _ & _ & ->)%handleEdit_updated. done.
  - intros events ev g g' Hg Hg' Heq.
    eapply step_keeps_origin; [|done..]. apply IdsOk_run, IdsOk_initial.
Qed.


(* ------------------------------------------------------------------- *)
(** ** Dishes *)
(* ------------------------------------------------------------------- *)

(** What [dropWhile] drops satisfies the test, and what is left does not
    start with a code unit that does. *)
Lemma dropWhile_split {A} (p : A → bool) l :
  ∃ k, l = k ++ dropWhile p l ∧ forallb p k = true.
Proof.
  induction l as [|x l (k & Hl & Hk)]; [by exists []|]. simpl.
  destruct (p x) eqn:Hx; [|by exists []].
  exists (x :: k). simpl. rewrite Hx, Hk. by rewrite <- Hl.
Qed.

Lemma dropWhile_head {A} (p : A → bool) l x l' :
  dropWhile p l = x :: l' → p x = false.
Proof.
  induction l as [|y l IH]; simpl; [done|].
  destruct (p y) eqn:Hy; [done|]. by intros [= <- <-].
Qed.

Lemma dropWhile_clean {A} (p : A → bool) l :
  match l with [] => True | x :: _ => p x = false end → dropWhile p l = l.
Proof. destruct l as [|x l]; simpl; [done|]. by intros ->. Qed.

Lemma dropWhile_forallb {A} (p q : A → bool) l :
  forallb q l = true → forallb q (dropWhile p l) = true.
Proof.
  induction l as [|x l IH]; simpl; [done|].
  intros [Hx Hl]%andb_prop. destruct (p x); [auto|]. simpl. by rewrite Hx, Hl.
Qed.

(** Trimming keeps what holds of every code unit. *)
Lemma trim_forallb (q : N → bool) s :
  forallb q s = true → forallb q (trim s) = true.
Proof.
  intros Hs. unfold trim, trimEnd, trimStart.
  rewrite forallb_reverse. apply dropWhile_forallb.
  rewrite forallb_reverse. by apply dropWhile_forallb.
Qed.

(** A trimmed string neither starts nor ends with a code unit that [trim]
    strips. *)
Lemma trim_ends s :
  match trim s with [] => True | c :: _ => isTrimmable c = false end ∧
  match reverse (trim s) with [] => True | c :: _ => isTrimmable c = false end.
Proof.
  unfold trim, trimEnd, trimStart.
  set (a := dropWhile isTrimmable s).
  set (b := dropWhile isTrimmable (reverse a)).
  rewrite reverse_involutive. split.
  - destruct (dropWhile_split isTrimmable (reverse a)) as (k & Hk & _).
    fold b in Hk. apply (f_equal reverse) in Hk.
    rewrite reverse_involutive, reverse_app in Hk.
    destruct (reverse b) as [|c rest] eqn:Hb; [done|].
    simpl in Hk. exact (dropWhile_head isTrimmable s c _ Hk).
  - destruct b as [|c rest] eqn:Hb; [done|]. by eapply dropWhile_head.
Qed.

Lemma trim_idempotent s : trim (trim s) = trim s.
Proof.
  destruct (trim_ends s) as [Hhead Hlast].
  unfold trim at 1. unfold trimEnd, trimStart.
  rewrite (dropWhile_clean _ (trim s)) by done.
  rewrite (dropWhile_clean _ (reverse (trim s))) by done.
  apply reverse_involutive.
Qed.

(** X1. Every dish read from the menu is a single clean line: it is not
    empty, it holds no line feed, and trimming it again changes nothing,
    so that it neither starts nor ends with white space. *)
Theorem dishes_are_clean_lines menuText dish :
  dish ∈ dishesOf menuText →
  dish ≠ [] ∧ lacks LF dish = true ∧ trim dish = dish ∧
  match dish with [] => True | c :: _ => isTrimmable c = false end ∧
  match reverse dish with [] => True | c :: _ => isTrimmable c = false end.
Proof.
  intros [Hne (line & Hline & ->)]%dishesOf_spec.
  destruct (trim_ends line). split_and!; try done.
  - apply trim_forallb.
    exact (proj1 (Forall_forall _ _) (split_pieces_lack LF menuText) line Hline).
  - apply trim_idempotent.
Qed.

(** The dishes keep the order of the lines: they are the trimmed lines with
    the blank ones left out. *)
Lemma dishesOf_app_line line rest :
  lacks LF line = true →
  dishesOf (line ++ LF :: rest) =
  (if truthy (trim line) then [trim line] else []) ++ dishesOf rest.
Proof.
  intros Hline. unfold dishesOf. rewrite split_first by done. cbn.
  by destruct (truthy (trim line)).
Qed.

(* ------------------------------------------------------------------- *)
(** ** Decoding any payload *)
(* ------------------------------------------------------------------- *)

Lemma base64DataOf_encode_any data mimeType :
  lacks comma mimeType = true →
  base64DataOf (encodeToDataUri data mimeType) = split comma data !! 0.
Proof.
  intros Hm. unfold base64DataOf, encodeToDataUri.
  change (lit ";base64," ++ data) with (lit ";base64" ++ comma :: data).
  rewrite !app_assoc, split_first by (by rewrite !lacks_app, Hm). done.
Qed.

(** X2. Decoding the data URI written for any data and a valid media type
    gives back the media type and the data up to its first comma, and
    fails when that is empty.  So a generated image whose bytes are empty
    or start with a comma is stored with a payload no edit can decode. *)
Theorem decode_encode_any data mimeType :
  validMediaType mimeType = true →
  decodeFromDataUri (encodeToDataUri data mimeType) =
  match split comma data with
  | (_ :: _) as first :: _ => Some (first, mimeType)
  | _ => None
  end.
Proof.
  unfold validMediaType.
  intros [[[Hm Hmc]%andb_prop Hms]%andb_prop Hmk]%andb_prop.
  unfold decodeFromDataUri.
  rewrite base64DataOf_encode_any, mimeTypeOf_encode by done.
  destruct (split comma data) as [|[|c first] pieces]; cbn; try done.
  by rewrite Hm.
Qed.

(** X3. Whatever the decoder returns is clean: the data is not empty and
    holds no comma, the media type is not empty and holds neither [;] nor
    [:]; and when the media type holds no comma either, writing the two
    back into a data URI and decoding again returns them unchanged. *)
Theorem decoded_parts_are_clean url base64Data mimeType :
  decodeFromDataUri url = Some (base64Data, mimeType) →
  base64Data ≠ [] ∧ lacks comma base64Data = true ∧
  mimeType ≠ [] ∧ lacks semicolon mimeType = true ∧ lacks colon mimeType = true ∧
  (lacks comma mimeType = true →
   decodeFromDataUri (encodeToDataUri base64Data mimeType)
   = Some (base64Data, mimeType)).
Proof.
  intros (Hdata & Hmime & Hd & Hm)%decodeFromDataUri_Some.
  destruct (mimeTypeOf_lacks _ _ Hmime) as [Hsemi Hcolon].
  assert (lacks comma base64Data = true) as Hcomma.
  { unfold base64DataOf in Hdata.
    exact (Forall_lookup_1 _ _ _ _ (split_pieces_lack comma url) Hdata). }
  split_and!; try done. intros Hmc. by apply decode_encode_valid.
Qed.


(* ------------------------------------------------------------------- *)
(** ** The service module, case by case *)
(* ------------------------------------------------------------------- *)

Lemma startsWith_prefix pre s :
  startsWith pre s = true ↔ ∃ rest, s = pre ++ rest.
Proof.
  revert s. induction pre as [|a pre IH]; intros s; simpl.
  - split; [intros _; by exists s|done].
  - destruct s as [|b s]; [split; [done|by intros [? ?]]|].
    rewrite andb_true_iff, N.eqb_eq, IH. split.
    + intros [-> [rest ->]]. by exists rest.
    + intros [rest [= -> ->]]. eauto.
Qed.

(** X4. [generateFoodImage] succeeds exactly when an API key is set, the
    model answers with at least one entry and the first entry has an
    image; it returns the [imageBytes] of that image as they are, be they
    empty or [undefined]. *)
Theorem generateFoodImage_succeeds_iff prompt style remote value :
  (generateFoodImage prompt style remote).2 = Fulfilled value ↔
  falsy API_KEY = false ∧
  ∃ response first rest image,
    remote = Fulfilled response ∧
    GenAI.generatedImages response = Some (first :: rest) ∧
    GenAI.image first = Some image ∧
    GenAI.imageBytes image = value.
Proof.
  unfold generateFoodImage. destruct (falsy API_KEY).
  - split; [done|by intros [? _]].
  - assert (∀ request : GenAI.GenerateImagesRequest,
      ([request],
       match remote with
       | Fulfilled response =>
           match GenAI.generatedImages response with
           | Some (first :: _) =>
               match GenAI.image first with
               | Some image => Fulfilled (GenAI.imageBytes image)
               | None => Rejected (lit "Failed to generate image: " ++ typeErrorMessage)
               end
           | _ => Rejected (lit "Failed to generate image: " ++ lit "No image generated.")
           end
       | Rejected message => Rejected (lit "Failed to generate image: " ++ message)
       end).2 = Fulfilled value ↔
      false = false ∧
      ∃ response first rest image,
        remote = Fulfilled response ∧
        GenAI.generatedImages response = Some (first :: rest) ∧
        GenAI.image first = Some image ∧
        GenAI.imageBytes image = value) as Hany.
    { intros request. cbn [snd]. split.
      - destruct remote as [response|message]; [|done].
        destruct (GenAI.generatedImages response) as [[|first rest]|] eqn:Himages;
          [done| |done].
        destruct (GenAI.image first) as [image|] eqn:Himage; [|done].
        intros [= <-]. split; [done|]. by exists response, first, rest, image.
      - intros (_ & response & first & rest & image & -> & -> & -> & <-). done. }
    destruct style; apply Hany.
Qed.

(** X5. When [generateFoodImage] fails, the message says why: the key is
    missing and nothing was sent; or a request was sent and the model
    returned no entry, or the first entry had no image and reading its
    bytes threw, or the call itself failed; in the last two cases the
    message of the error is passed on after [Failed to generate image: ]. *)
Theorem generateFoodImage_failure_reasons prompt style remote message :
  (generateFoodImage prompt style remote).2 = Rejected message →
  (falsy API_KEY = true ∧
   (generateFoodImage prompt style remote).1 = [] ∧
   message = lit "API Key is missing. Cannot generate image.") ∨
  (falsy API_KEY = false ∧
   (generateFoodImage prompt style remote).1 = [specRequest style prompt] ∧
   ((∃ response, remote = Fulfilled response ∧
                 (GenAI.generatedImages response = None ∨
                  GenAI.generatedImages response = Some []) ∧
                 message = lit "Failed to generate image: No image generated.") ∨
    (∃ response first rest,
       remote = Fulfilled response ∧
       GenAI.generatedImages response = Some (first :: rest) ∧
       GenAI.image first = None ∧
       message = lit "Failed to generate image: " ++ typeErrorMessage) ∨
    (∃ cause, remote = Rejected cause ∧
              message = lit "Failed to generate image: " ++ cause))).
Proof.
  destruct (falsy API_KEY) eqn:Hkey.
  - rewrite generateFoodImage_no_key by done. cbn. intros [= <-]. by left.
  - intros Hfail. right. split; [done|].
    split; [by apply generateFoodImage_request|].
    assert (match remote with
            | Fulfilled response =>
                match GenAI.generatedImages response with
                | Some (first :: _) =>
                    match GenAI.image first with
                    | Some image => Fulfilled (GenAI.imageBytes image)
                    | None => Rejected (lit "Failed to generate image: " ++ typeErrorMessage)
                    end
                | _ => Rejected (lit "Failed to generate image: " ++ lit "No image generated.")
                end
            | Rejected cause => Rejected (lit "Failed to generate image: " ++ cause)
            end = Rejected message) as Hcase.
    { unfold generateFoodImage in Hfail. rewrite Hkey in Hfail.
      by destruct style. }
    clear Hfail. destruct remote as [response|cause].
    + destruct (GenAI.generatedImages response) as [[|first rest]|] eqn:Himages.
      * injection Hcase as <-. left. exists response. eauto.
      * destruct (GenAI.image first) as [image|] eqn:Himage; [done|].
        injection Hcase as <-. right. left. by exists response, first, rest.
      * injection Hcase as <-. left. exists response. eauto.
    + injection Hcase as <-. right. right. by exists cause.
Qed.

Lemma editFoodImage_request base64 mimeType editPrompt remote :
  (editFoodImage base64 mimeType editPrompt remote).1 =
  if falsy API_KEY then [] else [editRequest base64 mimeType editPrompt].
Proof. unfold editFoodImage. by destruct (falsy API_KEY). Qed.

(** X6. [editFoodImage] succeeds exactly when an API key is set, the model
    answers, and in the first candidate the first part whose media type
    starts with [image/] carries data that is not empty; it returns that
    data.  A later candidate, or a later image part, is never used. *)
Theorem editFoodImage_succeeds_iff base64 mimeType editPrompt remote data :
  (editFoodImage base64 mimeType editPrompt remote).2 = Fulfilled data ↔
  falsy API_KEY = false ∧ data ≠ [] ∧
  ∃ response candidate content parts part blob kind,
    remote = Fulfilled response ∧
    GenAI.candidates response ≫= (λ cs : list GenAI.Candidate, cs !! 0)
      = Some candidate ∧
    GenAI.content candidate = Some content ∧
    GenAI.parts content = Some parts ∧
    List.find isImagePart parts = Some part ∧
    GenAI.inlineData part = Some blob ∧
    GenAI.mimeType blob = Some (lit "image/" ++ kind) ∧
    GenAI.data blob = Some data.
Proof.
  split.
  - destruct (editFoodImage base64 mimeType editPrompt remote) as [log r] eqn:Hrun.
    cbn. intros ->.
    assert (falsy API_KEY = false) as Hkey.
    { unfold editFoodImage in Hrun. by destruct (falsy API_KEY). }
    apply editFoodImage_Fulfilled in Hrun
      as (Hne & response & part & blob & -> & Hpart & Hblob & Hdata).
    split_and!; try done.
    unfold editedImagePart in Hpart.
    destruct (GenAI.candidates response ≫= _) as [candidate|] eqn:Hc; [|done].
    cbn in Hpart.
    destruct (GenAI.content candidate) as [content|] eqn:Hcontent; [|done].
    cbn in Hpart.
    destruct (GenAI.parts content) as [parts|] eqn:Hparts; [|done].
    cbn in Hpart.
    pose proof (find_some _ _ Hpart) as [_ Himage].
    unfold isImagePart in Himage. rewrite Hblob in Himage. cbn in Himage.
    destruct (GenAI.mimeType blob) as [mime|] eqn:Hmime; [|done].
    apply startsWith_prefix in Himage as [kind ->].
    by exists response, candidate, content, parts, part, blob, kind.
  - intros (Hkey & Hne & response & candidate & content & parts & part & blob & kind
            & -> & Hc & Hcontent & Hparts & Hpart & Hblob & _ & Hdata).
    unfold editFoodImage. rewrite Hkey. cbn.
    unfold editedImagePart. rewrite Hc. cbn. rewrite Hcontent. cbn.
    rewrite Hparts. cbn. rewrite Hpart. cbn. rewrite Hblob. cbn. rewrite Hdata.
    by destruct data.
Qed.

Lemma settle_calls_rejected promises order b :
  (∀ i promise, promises !! i = Some promise → ∃ message, promise.2 = Rejected message) →
  b_uuidCalls (foldl (settleDish promises) b order) = b_uuidCalls b.
Proof.
  intros Hrej. revert b. induction order as [|i order IH]; intros b; cbn; [done|].
  rewrite IH. unfold settleDish.
  destruct (promises !! i) as [[dish outcome]|] eqn:Hi; [|done].
  destruct (Hrej i _ Hi) as [message Hm]. cbn in Hm. by rewrite Hm.
Qed.

(** X7. Without an API key a batch sends no request at all: once its calls
    have settled the session is empty and the message shown is that of the
    dish whose call settled last. *)
Theorem batch_without_key imagen order w st :
  falsy API_KEY = true →
  truthy (trim (App.menuText st)) = true →
  allSettle (dishesOf (App.menuText st)) order →
  let w' := (handleGenerateImages imagen order w st).1 in
  let st' := (handleGenerateImages imagen order w st).2 in
  imagenLog w' = imagenLog w ∧ uuidCalls w' = uuidCalls w ∧
  App.generatedImages st' = [] ∧ App.loading st' = false ∧
  ∃ dish, dish ∈ dishesOf (App.menuText st) ∧
          App.error st' = Some (failureMessage dish).
Proof.
  intros Hkey Hmenu Hall w' st'.
  set (style := App.selectedStyle st). set (dishes := dishesOf (App.menuText st)).
  assert (∀ i dish, ∃ message, callOutcome style imagen i dish = Rejected message)
    as Hfail.
  { intros i dish. unfold callOutcome.
    rewrite generateFoodImage_no_key by done. eauto. }
  assert (successes style imagen dishes = []) as Hnone.
  { unfold successes. generalize dishes. intros l.
    assert (∀ f : nat → nat,
      omap (λ x, x)
        (imap (λ i dish, match callOutcome style imagen (f i) dish with
                         | Fulfilled bytes => Some (dish, inTemplate bytes)
                         | Rejected _ => None
                         end) l) = []) as H.
    { induction l as [|dish l IH]; intros f; [done|]. cbn.
      destruct (Hfail (f 0) dish) as [message ->]. apply (IH (f ∘ S)). }
    apply (H (λ i, i)). }
  assert (uuidCalls (handleGenerateImages imagen order w st).1 = uuidCalls w)
    as Hcalls.
  { rewrite handleGenerateImages_runs by done. cbv zeta. cbn [fst uuidCalls].
    rewrite settle_calls_rejected; [done|].
    intros i [dish outcome]. rewrite promisesOf_lookup.
    destruct (dishesOf (App.menuText st) !! i) as [d|]; [|done].
    cbn. intros [= <- <-]. apply Hfail. }
  destruct (generate_settled imagen order w st Hmenu Hall)
    as (hi & newImages & Hrun & Hhi & Hmade).
  subst w' st'. rewrite Hrun in *. cbn in *. rewrite Hkey.
  fold style dishes in Hmade. rewrite Hnone in Hmade.
  apply Forall2_nil_inv_l in Hmade as ->.
  assert (dishes ≠ []) as Hdishes.
  { intros Hnil. apply dishesOf_nil_trim in Hnil. by rewrite Hnil in Hmenu. }
  destruct dishes as [|dish0 rest] eqn:Hd; [done|].
  destruct (Hfail 0 dish0) as [message0 H0].
  assert (dish0 ∈ failuresAsSettled style imagen (dish0 :: rest) order) as Hin.
  { apply failuresAsSettled_elem. exists 0, message0. split_and!; [|done..].
    apply Hall. fold dishes. rewrite Hd. cbn. lia. }
  fold style. fold dishes. rewrite Hd.
  destruct (last (failuresAsSettled style imagen (dish0 :: rest) order))
    as [dish|] eqn:Hlast.
  - split_and!; try done; [by rewrite app_nil_r|].
    exists dish. split; [|done].
    apply last_Some_elem_of, failuresAsSettled_elem in Hlast
      as (i & ? & _ & Hi & _).
    by eapply list_elem_of_lookup_2.
  - apply last_None in Hlast. rewrite Hlast in Hin. by apply elem_of_nil in Hin.
Qed.


(* ------------------------------------------------------------------- *)
(** ** Editing, case by case *)
(* ------------------------------------------------------------------- *)

(** X8. An edit sends at most one request, and when it sends one it is for
    the payload the modal shows: the request carries the data and the
    media type decoded from that payload, and the prompt exactly as typed,
    not trimmed.  It sends none when the prompt is blank, when the payload
    does not decode, or when no API key is set. *)
Theorem edit_request_is_for_shown_payload image gemini m :
  (handleEdit image gemini m).1.1 =
  if truthy (trim (Modal.editPrompt m)) && negb (falsy API_KEY) then
    match decodeFromDataUri (Modal.currentEditedImageUrl m) with
    | Some (base64Data, mimeType) =>
        [editRequest base64Data mimeType (Modal.editPrompt m)]
    | None => []
    end
  else [].
Proof.
  unfold handleEdit.
  destruct (truthy (trim (Modal.editPrompt m))); cbn [negb andb]; [|done].
  destruct (decodeFromDataUri _) as [[base64Data mimeType]|];
    [|by destruct (negb _)].
  pose proof (editFoodImage_request base64Data mimeType (Modal.editPrompt m) gemini)
    as Hlog.
  destruct (editFoodImage _ _ _ _) as [log [data|reason]]; cbn in *;
    rewrite Hlog; by destruct (falsy API_KEY).
Qed.

(** X9. Without an API key an edit with a prompt fails before anything is
    sent: the modal shows that the key is missing, [onImageEdited] is not
    called, and the prompt and the payload shown stay. *)
Theorem edit_without_key image gemini m base64Data mimeType :
  falsy API_KEY = true →
  truthy (trim (Modal.editPrompt m)) = true →
  decodeFromDataUri (Modal.currentEditedImageUrl m) = Some (base64Data, mimeType) →
  handleEdit image gemini m =
  ([],
   {| Modal.editPrompt := Modal.editPrompt m;
      Modal.editingImage := false;
      Modal.error :=
        Some (lit "Failed to edit image: API Key is missing. Cannot edit image.");
      Modal.currentEditedImageUrl := Modal.currentEditedImageUrl m |},
   None).
Proof.
  intros Hkey Hp Hdecode.
  apply (handleEdit_failure image gemini m base64Data mimeType); [done..|].
  unfold editFoodImage. by rewrite Hkey.
Qed.

(** X10. A payload without a comma cannot be edited: the edit fails
    before anything is sent, whatever the model would have answered, the
    modal shows that the image data could not be extracted, and
    [onImageEdited] is not called. *)
Theorem edit_of_undecodable_payload image gemini m :
  truthy (trim (Modal.editPrompt m)) = true →
  lacks comma (Modal.currentEditedImageUrl m) = true →
  handleEdit image gemini m =
  ([],
   {| Modal.editPrompt := Modal.editPrompt m;
      Modal.editingImage := false;
      Modal.error :=
        Some (lit "Failed to edit image: Could not extract image data for editing.");
      Modal.currentEditedImageUrl := Modal.currentEditedImageUrl m |},
   None).
Proof.
  intros Hp Hcomma. apply handleEdit_corrupt; [done|].
  unfold decodeFromDataUri, base64DataOf. by rewrite split_lacks.
Qed.

(** X11. What an edit does is decided by the prompt, the payload the modal
    shows and the answer of the model; of the image it was given it uses
    nothing but to copy it: two images edited from the same modal get the
    same new payload and the same new history entry, and the same
    requests are sent. *)
Theorem edit_reads_only_the_modal image1 image2 gemini m :
  (handleEdit image1 gemini m).1 = (handleEdit image2 gemini m).1 ∧
  match (handleEdit image1 gemini m).2, (handleEdit image2 gemini m).2 with
  | Some updated1, Some updated2 =>
      imageUrl updated1 = imageUrl updated2 ∧
      last (editHistory updated1) = last (editHistory updated2) ∧
      id updated1 = id image1 ∧ id updated2 = id image2
  | None, None => True
  | _, _ => False
  end.
Proof.
  unfold handleEdit.
  destruct (truthy (trim (Modal.editPrompt m))); cbn [negb]; [|done].
  destruct (decodeFromDataUri _) as [[base64Data mimeType]|]; [|done].
  destruct (editFoodImage _ _ _ _) as [log [data|reason]]; [|done].
  cbn. by rewrite !last_snoc.
Qed.


(* ------------------------------------------------------------------- *)
(** ** Replacing an entry of the session *)
(* ------------------------------------------------------------------- *)

(** X12. When the identifiers of the session are all different,
    [handleImageEdited] is an update in place: the entry with the
    identifier of the updated image is replaced where it stands, every
    other entry and the order are kept, and the updated image becomes the
    one being edited. *)
Theorem handleImageEdited_updates_in_place updatedImage st i img :
  NoDup (id <$> App.generatedImages st) →
  App.generatedImages st !! i = Some img →
  id img = id updatedImage →
  App.generatedImages (handleImageEdited updatedImage st)
    = <[i := updatedImage]> (App.generatedImages st) ∧
  App.editingImage (handleImageEdited updatedImage st) = Some updatedImage.
Proof.
  intros Hnodup Hi Hid. split; [|done]. cbn.
  apply list_eq. intros j. rewrite list_lookup_fmap.
  destruct (decide (i = j)) as [<-|Hne].
  - rewrite Hi, list_lookup_insert_eq by (by eapply lookup_lt_Some).
    cbn. by rewrite decide_True.
  - rewrite list_lookup_insert_ne by done.
    destruct (App.generatedImages st !! j) as [other|] eqn:Hj; [|done].
    cbn. rewrite decide_False; [done|]. intros Hsame. apply Hne.
    eapply (NoDup_lookup _ i j (id img) Hnodup).
    + by rewrite list_lookup_fmap, Hi.
    + rewrite list_lookup_fmap, Hj. cbn. congruence.
Qed.

(** X13. When no entry of the session has the identifier of the updated
    image, [handleImageEdited] leaves the session as it is: the edit shows
    in the editor only. *)
Theorem handleImageEdited_unknown_id updatedImage st :
  id updatedImage ∉ (id <$> App.generatedImages st) →
  App.generatedImages (handleImageEdited updatedImage st) = App.generatedImages st ∧
  App.editingImage (handleImageEdited updatedImage st) = Some updatedImage.
Proof.
  intros Hnotin. split; [|done]. cbn.
  rewrite <- (list_fmap_id (App.generatedImages st)) at 2.
  apply list_fmap_ext. intros j img Hj. cbn.
  rewrite decide_False; [done|]. intros Hsame. apply Hnotin.
  rewrite <- Hsame. apply list_elem_of_fmap_2. by eapply list_elem_of_lookup_2.
Qed.

(* ------------------------------------------------------------------- *)
(** ** What holds of every image, always *)
(* ------------------------------------------------------------------- *)

(** A property that the images of a batch have when made, and that a
    successful edit hands on, holds of every image held after any event. *)
Lemma held_images_step (P : GeneratedImage → Prop) ui ev :
  (∀ k dish bytes,
     P {| id := uuidv4 k;
          dishName := dish;
          imageUrl := lit "data:image/jpeg;base64," ++ bytes;
          originalPrompt := dish;
          editHistory := [] |}) →
  (∀ image gemini m log m' updatedImage,
     P image → handleEdit image gemini m = (log, m', Some updatedImage) →
     P updatedImage) →
  Forall P (images ui) → Forall P (images (step ui ev)).
Proof.
  intros Hmade Hedit Hold. unfold images in *.
  destruct ev as [text|style|imagen order|card|text|gemini|]; cbn.
  - by destruct (App.loading (app ui)).
  - by destruct (App.loading (app ui)).
  - destruct (App.loading (app ui)); [done|].
    destruct (truthy (trim (App.menuText (app ui)))) eqn:Hmenu.
    + pose proof (generate_fresh imagen order (world ui) (app ui)) as Hfresh.
      pose proof (generate_editingImage imagen order (world ui) (app ui)) as Hediting.
      destruct (handleGenerateImages _ _ _ _) as [w st]. cbn in *.
      unfold heldImages in *. rewrite Hediting.
      apply Forall_app in Hold as [_ Hold]. apply Forall_app. split; [|done].
      apply Forall_forall. intros g Hg.
      destruct (Hfresh g Hmenu Hg) as (k & dish & bytes & _ & ->). apply Hmade.
    + by rewrite handleGenerateImages_rejects.
  - destruct (App.generatedImages (app ui) !! card) as [image|] eqn:Hcard; [|done].
    unfold heldImages in *. cbn.
    apply Forall_app in Hold as [Hsession _]. apply Forall_app. split; [done|].
    constructor; [|constructor]. by eapply Forall_lookup_1.
  - destruct (modal ui) as [m|]; [|done]. by destruct (Modal.editingImage m).
  - destruct (App.editingImage (app ui)) as [image|] eqn:Hediting; [|done].
    destruct (modal ui) as [m|]; [|done].
    destruct (Modal.editingImage m); [done|].
    destruct (handleEdit image gemini m) as [[log m'] [updatedImage|]] eqn:Hrun;
      [|done].
    unfold heldImages in *. rewrite Hediting in Hold. cbn.
    apply Forall_app in Hold as [Hsession Himage].
    assert (P updatedImage) as Hupdated.
    { eapply Hedit; [|done]. by inversion_clear Himage. }
    apply Forall_app. split; [|by constructor].
    apply Forall_fmap. eapply Forall_impl; [exact Hsession|].
    intros img Himg. cbn. by destruct (decide _).
  - destruct (modal ui) as [m|]; [|done].
    destruct (Modal.editingImage m); [done|].
    unfold heldImages in *. cbn. rewrite app_nil_r.
    by apply Forall_app in Hold as [Hsession _].
Qed.

Lemma held_images_run (P : GeneratedImage → Prop) events :
  (∀ k dish bytes,
     P {| id := uuidv4 k;
          dishName := dish;
          imageUrl := lit "data:image/jpeg;base64," ++ bytes;
          originalPrompt := dish;
          editHistory := [] |}) →
  (∀ image gemini m log m' updatedImage,
     P image → handleEdit image gemini m = (log, m', Some updatedImage) →
     P updatedImage) →
  Forall P (images (run initial events)).
Proof.
  intros Hmade Hedit. unfold run.
  assert (Forall P (images initial)) as Hinit by constructor.
  revert Hinit. generalize initial.
  induction events as [|ev events IH]; intros ui Hui; [done|].
  cbn. apply IH. by apply held_images_step.
Qed.

(** X14. In every state the application reaches, every image that has
    been edited shows the result of its last edit: its payload is the
    payload recorded in the last entry of its history. *)
Theorem payload_is_always_last_edit events g :
  g ∈ images (run initial events) → payloadIsLastEdit g.
Proof.
  revert g. apply Forall_forall, held_images_run.
  - by intros k dish bytes e.
  - intros image gemini m log m' updatedImage _
      (? & ? & ? & _ & _ & _ & _ & ->)%handleEdit_updated e. cbn.
    rewrite last_snoc. by intros [= <-].
Qed.

(** X15. In every state the application reaches, the label of an image
    and its original prompt are the same text, and no prompt recorded in
    an edit history is blank. *)
Theorem label_is_prompt_and_no_blank_edit events g :
  g ∈ images (run initial events) →
  originalPrompt g = dishName g ∧ promptsNotBlank g.
Proof.
  revert g. apply Forall_forall, held_images_run.
  - intros k dish bytes. split; [done|constructor].
  - intros image gemini m log m' updatedImage [Hlabel Hprompts]
      (? & ? & ? & Hp & _ & _ & _ & ->)%handleEdit_updated.
    split; [done|]. unfold promptsNotBlank. cbn.
    apply Forall_app. split; [done|]. by constructor.
Qed.


(* ------------------------------------------------------------------- *)
(** ** One image for one identifier *)
(* ------------------------------------------------------------------- *)

Lemma elem_of_heldImages st g :
  g ∈ heldImages st ↔
  g ∈ App.generatedImages st ∨ App.editingImage st = Some g.
Proof.
  unfold heldImages. rewrite elem_of_app.
  destruct (App.editingImage st) as [image|]; cbn.
  - rewrite list_elem_of_singleton. split; intros [?|?]; eauto; [by subst; right|].
    right. congruence.
  - split; [intros [?|Hnil]; [by left|by apply elem_of_nil in Hnil]|].
    intros [?|?]; [by left|done].
Qed.

(** What an event does to the images held: it adds none; or it is a batch
    that replaces the session; or it is a successful edit that replaces
    the entries with the identifier of the image being edited. *)
Lemma step_images_cases ui ev :
  (∀ g, g ∈ images (step ui ev) → g ∈ images ui) ∨
  (∃ imagen order,
     truthy (trim (App.menuText (app ui))) = true ∧
     uuidCalls (world (step ui ev))
       = uuidCalls (handleGenerateImages imagen order (world ui) (app ui)).1 ∧
     App.generatedImages (app (step ui ev))
       = App.generatedImages (handleGenerateImages imagen order (world ui) (app ui)).2 ∧
     App.editingImage (app (step ui ev)) = App.editingImage (app ui)) ∨
  (∃ image gemini m log m' updatedImage,
     App.editingImage (app ui) = Some image ∧
     handleEdit image gemini m = (log, m', Some updatedImage) ∧
     App.generatedImages (app (step ui ev))
       = (λ img, if decide (id img = id updatedImage) then updatedImage else img)
           <$> App.generatedImages (app ui) ∧
     App.editingImage (app (step ui ev)) = Some updatedImage).
Proof.
  unfold images.
  destruct ev as [text|style|imagen order|card|text|gemini|]; cbn.
  - left. by destruct (App.loading (app ui)).
  - left. by destruct (App.loading (app ui)).
  - destruct (App.loading (app ui)); [by left|].
    destruct (truthy (trim (App.menuText (app ui)))) eqn:Hmenu.
    + right. left. exists imagen, order.
      pose proof (generate_editingImage imagen order (world ui) (app ui)).
      by destruct (handleGenerateImages _ _ _ _).
    + left. by rewrite handleGenerateImages_rejects.
  - left. destruct (App.generatedImages (app ui) !! card) as [image|] eqn:Hcard;
      [|done].
    intros g [Hg|Hg]%elem_of_heldImages; apply elem_of_heldImages; left; [done|].
    cbn in Hg. injection Hg as <-. by eapply list_elem_of_lookup_2.
  - left. destruct (modal ui) as [m|]; [|done]. by destruct (Modal.editingImage m).
  - destruct (App.editingImage (app ui)) as [image|] eqn:Hediting; [|by left].
    destruct (modal ui) as [m|]; [|by left].
    destruct (Modal.editingImage m); [by left|].
    destruct (handleEdit image gemini m) as [[log m'] [updatedImage|]] eqn:Hrun;
      [|by left].
    right. right. by exists image, gemini, m, log, m', updatedImage.
  - left. destruct (modal ui) as [m|]; [|done].
    destruct (Modal.editingImage m); [done|].
    intros g [Hg|Hg]%elem_of_heldImages; [|done].
    apply elem_of_heldImages. by left.
Qed.

Lemma coherent_initial : coherent initial.
Proof. by intros g h ?%elem_of_nil. Qed.

Lemma coherent_step ui ev : IdsOk ui → coherent ui → coherent (step ui ev).
Proof using uuidv4_unique.
  intros Hids Hco.
  pose proof (IdsOk_step ui ev Hids) as [_ _ Hunique'].
  destruct Hids as [Hdrawn _ _].
  destruct (step_images_cases ui ev)
    as [Hsub|[(imagen & order & Hmenu & Hcalls & Hsession & Hediting)
             |(image & gemini & m & log & m' & updatedImage
               & Hediting & Hrun & Hsession & Hediting')]].
  - intros g h Hg Hh. apply Hco; by apply Hsub.
  - assert (∀ g, g ∈ App.generatedImages (app (step ui ev)) →
                 ∃ k, uuidCalls (world ui) ≤ k ∧ id g = uuidv4 k) as Hnew.
    { intros g Hg. rewrite Hsession in Hg.
      destruct (generate_fresh imagen order (world ui) (app ui) g Hmenu Hg)
        as (k & ? & ? & [? _] & ->). by exists k. }
    assert (∀ g, App.editingImage (app (step ui ev)) = Some g →
                 ∃ k, k < uuidCalls (world ui) ∧ id g = uuidv4 k) as Hold.
    { intros g Hg. rewrite Hediting in Hg. apply Hdrawn.
      apply elem_of_heldImages. by right. }
    intros g h [Hg|Hg]%elem_of_heldImages [Hh|Hh]%elem_of_heldImages Hid.
    + by eapply (NoDup_fmap_eq id).
    + exfalso. destruct (Hnew g Hg) as (k & ? & Hk), (Hold h Hh) as (k' & ? & Hk').
      rewrite Hk, Hk' in Hid. apply uuidv4_unique in Hid. lia.
    + exfalso. destruct (Hnew h Hh) as (k & ? & Hk), (Hold g Hg) as (k' & ? & Hk').
      rewrite Hk, Hk' in Hid. apply uuidv4_unique in Hid. lia.
    + congruence.
  - assert (∀ g, g ∈ images (step ui ev) →
                 g = updatedImage ∨ (id g ≠ id updatedImage ∧ g ∈ images ui)) as Hcases.
    { intros g [Hg|Hg]%elem_of_heldImages.
      - rewrite Hsession in Hg. apply list_elem_of_fmap in Hg as (img & -> & Himg).
        destruct (decide _); [by left|]. right. split; [done|].
        apply elem_of_heldImages. by left.
      - left. congruence. }
    intros g h [->|[Hg ?]]%Hcases [->|[Hh ?]]%Hcases Hid; try done.
    by apply Hco.
Qed.

Lemma coherent_run events : IdsOk (run initial events) ∧ coherent (run initial events).
Proof using uuidv4_unique.
  unfold run.
  assert (IdsOk initial ∧ coherent initial) as Hinit
    by (split; [apply IdsOk_initial|apply coherent_initial]).
  revert Hinit. generalize initial.
  induction events as [|ev events IH]; intros ui [Hids Hco]; [done|].
  cbn. apply IH. split; [by apply IdsOk_step|by apply coherent_step].
Qed.

(** X16. In every state the application reaches, the identifiers of the
    session are all different, every identifier held was returned by
    [uuidv4], and an identifier stands for one image: the image being
    edited and a session entry with its identifier are the same image. *)
Theorem identifiers_are_unique_always events :
  let ui := run initial events in
  NoDup (id <$> App.generatedImages (app ui)) ∧
  (∀ g, g ∈ images ui → ∃ k, k < uuidCalls (world ui) ∧ id g = uuidv4 k) ∧
  coherent ui.
Proof using uuidv4_unique.
  intros ui. destruct (coherent_run events) as [[Hdrawn _ Hunique] Hco]. done.
Qed.

(** X17. The edit history of a session entry only grows: whatever
    happens next, the entry with the same identifier afterwards has the
    history it had, followed by at most one new edit, and the same label. *)
Theorem history_is_append_only events ev g g' :
  g ∈ App.generatedImages (app (run initial events)) →
  g' ∈ App.generatedImages (app (step (run initial events) ev)) →
  id g' = id g →
  dishName g' = dishName g ∧
  (editHistory g' = editHistory g ∨
   ∃ e, editHistory g' = editHistory g ++ [e] ∧ imageUrl g' = Edit.imageUrl e).
Proof using uuidv4_unique.
  destruct (coherent_run events) as [Hids Hco].
  set (ui := run initial events) in *. intros Hg Hg' Hid.
  assert (g ∈ images ui) as Hheld by (apply elem_of_heldImages; by left).
  destruct (step_images_cases ui ev)
    as [Hsub|[(imagen & order & Hmenu & Hcalls & Hsession & Hediting)
             |(image & gemini & m & log & m' & updatedImage
               & Hediting & Hrun & Hsession & Hediting')]].
  - assert (g' = g) as ->; [|by split; [|left]].
    apply Hco; [|done..]. apply Hsub, elem_of_heldImages. by left.
  - exfalso. rewrite Hsession in Hg'.
    destruct (generate_fresh imagen order (world ui) (app ui) g' Hmenu Hg')
      as (k & ? & ? & [? _] & ->).
    destruct (ids_drawn ui Hids g Hheld) as (k' & ? & Hk').
    cbn in Hid. rewrite Hk' in Hid. apply uuidv4_unique in Hid. lia.
  - rewrite Hsession in Hg'. apply list_elem_of_fmap in Hg' as (img & -> & Himg).
    apply handleEdit_updated in Hrun as (? & ? & ? & _ & _ & _ & _ & Hupdated).
    destruct (decide _) as [Hsame|Hother].
    + assert (image = g) as ->.
      { apply Hco; [apply elem_of_heldImages; by right|done|].
        rewrite Hupdated in Hid. done. }
      rewrite Hupdated. cbn. split; [done|]. right. eauto.
    + assert (img = g) as ->; [|by split; [|left]].
      apply Hco; [apply elem_of_heldImages; by left|done..].
Qed.


(* ------------------------------------------------------------------- *)
(** ** A batch, from the page *)
(* ------------------------------------------------------------------- *)

(** X18. A batch changes nothing but the session, the [loading] flag and
    the error: the menu text, the style and the image open in the editor
    are kept, nothing is sent to the edit model, and the count of
    identifiers drawn does not go down. *)
Theorem batch_frame imagen order w st :
  let w' := (handleGenerateImages imagen order w st).1 in
  let st' := (handleGenerateImages imagen order w st).2 in
  App.menuText st' = App.menuText st ∧
  App.selectedStyle st' = App.selectedStyle st ∧
  App.editingImage st' = App.editingImage st ∧
  geminiLog w' = geminiLog w ∧
  uuidCalls w ≤ uuidCalls w'.
Proof.
  intros w' st'. subst w' st'.
  pose proof (generate_calls imagen order w st) as Hcalls.
  destruct (truthy (trim (App.menuText st))) eqn:Hmenu.
  - rewrite handleGenerateImages_runs in * by done. done.
  - rewrite handleGenerateImages_rejects in * by done. done.
Qed.

Lemma mapM_pending {A} (cells : list (option A)) i :
  cells !! i = Some None → mapM (λ slot, slot) cells = None.
Proof.
  intros Hi. destruct (mapM _ cells) as [results|] eqn:Hresults; [|done].
  apply mapM_slots in Hresults. rewrite Hresults, list_lookup_fmap in Hi.
  by destruct (results !! i).
Qed.

(** A batch with a call that never settles does not finish. *)
Lemma generate_pending imagen order w st i :
  truthy (trim (App.menuText st)) = true →
  i < length (dishesOf (App.menuText st)) → i ∉ order →
  App.loading (handleGenerateImages imagen order w st).2 = true ∧
  App.generatedImages (handleGenerateImages imagen order w st).2 = [].
Proof.
  intros Hmenu Hi Hnever. rewrite handleGenerateImages_runs by done. cbv zeta. cbn.
  rewrite (mapM_pending _ i); [done|].
  rewrite settle_pending by done. cbn. by apply lookup_replicate_2.
Qed.

Lemma stuck_step ui ev : stuck ui → stuck (step ui ev).
Proof.
  intros [Hloading Hnone]. unfold stuck.
  destruct ev as [text|style|imagen order|card|text|gemini|]; cbn.
  - by rewrite Hloading.
  - by rewrite Hloading.
  - by rewrite Hloading.
  - by rewrite Hnone.
  - destruct (modal ui) as [m|]; [|done]. by destruct (Modal.editingImage m).
  - destruct (App.editingImage (app ui)) as [image|]; [|done].
    destruct (modal ui) as [m|]; [|done].
    destruct (Modal.editingImage m); [done|].
    destruct (handleEdit image gemini m) as [[log m'] [updatedImage|]]; [|done].
    cbn. by rewrite Hnone.
  - destruct (modal ui) as [m|]; [|done]. by destruct (Modal.editingImage m).
Qed.

(** X19. There is no timeout: when one call of a batch never settles, the
    handler never finishes.  The session stays empty and [loading] stays
    on, and since [loading] disables the menu, the styles and the Generate
    button, no later event brings the page back: after any further events
    the session is still empty and [loading] still on. *)
Theorem hanging_call_blocks_the_page ui imagen order i events :
  App.loading (app ui) = false →
  truthy (trim (App.menuText (app ui))) = true →
  i < length (dishesOf (App.menuText (app ui))) →
  i ∉ order →
  let ui' := run (step ui (ClickGenerate imagen order)) events in
  App.loading (app ui') = true ∧ App.generatedImages (app ui') = [].
Proof.
  intros Hidle Hmenu Hi Hnever.
  assert (stuck (step ui (ClickGenerate imagen order))) as Hstuck.
  { unfold stuck. cbn. rewrite Hidle.
    pose proof (generate_pending imagen order (world ui) (app ui) i Hmenu Hi Hnever).
    by destruct (handleGenerateImages _ _ _ _). }
  revert Hstuck. generalize (step ui (ClickGenerate imagen order)).
  induction events as [|ev events IH]; intros ui0 Hstuck; [done|].
  cbn. apply IH. by apply stuck_step.
Qed.

Lemma falsy_failureMessage dish : falsy (Some (failureMessage dish)) = false.
Proof. reflexivity. Qed.

(** X20. After a click on Generate the line [No images generated yet] is
    never shown, whatever the menu, the answers and the order in which the
    calls settle: the menu is rejected with a message, or the batch is
    still loading, or it ended with an image or with a message. *)
Theorem generate_hides_empty_hint imagen order w st :
  showsEmptyHint (handleGenerateImages imagen order w st).2 = false.
Proof.
  destruct (truthy (trim (App.menuText st))) eqn:Hmenu.
  2: { rewrite handleGenerateImages_rejects by done. unfold showsEmptyHint.
       cbn [snd App.error].
       change (falsy (Some (lit "Please enter your menu items."))) with false.
       apply andb_false_r. }
  rewrite handleGenerateImages_runs by done. cbv zeta. unfold showsEmptyHint.
  cbn [snd App.error App.loading App.generatedImages].
  set (style := App.selectedStyle st). set (dishes := dishesOf (App.menuText st)).
  set (b0 := {| slots := replicate (length dishes) None; b_error := None;
                b_uuidCalls := uuidCalls w |}).
  destruct (mapM _ _) as [results|] eqn:Hresults; [|by rewrite andb_false_r].
  apply mapM_slots in Hresults. cbn.
  assert (dishes ≠ []) as Hdishes.
  { intros Hnil. apply dishesOf_nil_trim in Hnil. by rewrite Hnil in Hmenu. }
  destruct dishes as [|dish rest] eqn:Hd; [done|].
  assert (0 ∈ order) as Hsettled.
  { destruct (decide (0 ∈ order)) as [|Hnever]; [done|]. exfalso.
    pose proof (settle_pending (promisesOf style imagen (dish :: rest)) order b0 0 Hnever)
      as Hslot.
    rewrite Hresults, list_lookup_fmap in Hslot. cbn in Hslot.
    by destruct (results !! 0). }
  destruct (settle_settled (promisesOf style imagen (dish :: rest)) order b0 0
              (dish, callOutcome style imagen 0 dish))
    as (cell & Hcell & Hs);
    [unfold b0; cbn [slots]; by rewrite length_replicate, length_promisesOf
    |done|done|].
  unfold settledAs in Hs. cbn [fst snd] in Hs.
  destruct (callOutcome style imagen 0 dish) as [bytes|message] eqn:Hcall.
  - destruct Hs as (k & _ & ->).
    rewrite Hresults, list_lookup_fmap in Hcell.
    destruct (results !! 0) as [result|] eqn:Hr; [|done]. injection Hcell as ->.
    assert (∃ g, g ∈ omap (λ result, result) results) as [g Hg].
    { eexists. apply list_elem_of_omap. eexists. split; [|done].
      by eapply list_elem_of_lookup_2. }
    destruct (omap _ results); [by apply elem_of_nil in Hg|done].
  - unfold b0. rewrite batch_error.
    assert (dish ∈ failuresAsSettled style imagen (dish :: rest) order) as Hin.
    { apply failuresAsSettled_elem. by exists 0, message. }
    destruct (last (failuresAsSettled style imagen (dish :: rest) order))
      as [d|] eqn:Hlast.
    + cbn [fmap option_fmap option_map]. rewrite falsy_failureMessage.
      apply andb_false_r.
    + apply last_None in Hlast. rewrite Hlast in Hin. by apply elem_of_nil in Hin.
Qed.

(* ------------------------------------------------------------------- *)
(** ** The editor and the session *)
(* ------------------------------------------------------------------- *)

Lemma editorInSync_step ui ev :
  (is_Some (modal ui) → underModal ev = false) →
  editorInSync ui → editorInSync (step ui ev).
Proof.
  intros Hcover Hsync. unfold editorInSync in *.
  destruct ev as [text|style|imagen order|card|text|gemini|]; cbn.
  - destruct (App.loading (app ui)); [done|]. cbn.
    destruct (App.editingImage (app ui)), (modal ui); done.
  - destruct (App.loading (app ui)); [done|]. cbn.
    destruct (App.editingImage (app ui)), (modal ui); done.
  - destruct (App.loading (app ui)); [done|].
    pose proof (generate_editingImage imagen order (world ui) (app ui)) as Hediting.
    destruct (handleGenerateImages _ _ _ _) as [w st]. cbn in *.
    rewrite Hediting.
    destruct (App.editingImage (app ui)), (modal ui) as [m|]; try done.
    by specialize (Hcover (mk_is_Some _ _ eq_refl)).
  - destruct (App.generatedImages (app ui) !! card) as [image|] eqn:Hcard; [|done].
    cbn. destruct (modal ui) as [m|]; cbn.
    + by specialize (Hcover (mk_is_Some _ _ eq_refl)).
    + split; [|done]. by eapply list_elem_of_lookup_2.
  - destruct (modal ui) as [m|] eqn:Hm; [|by rewrite Hm].
    destruct (Modal.editingImage m); [by rewrite Hm|]. cbn.
    by destruct (App.editingImage (app ui)).
  - destruct (App.editingImage (app ui)) as [image|] eqn:Hediting; [|by rewrite Hediting].
    destruct (modal ui) as [m|] eqn:Hm; [|by rewrite Hediting, Hm].
    destruct (Modal.editingImage m); [by rewrite Hediting, Hm|].
    destruct Hsync as [Hin Hurl].
    destruct (handleEdit image gemini m) as [[log m'] [updatedImage|]] eqn:Hrun.
    + pose proof (handleEdit_header _ _ _ _ _ _ Hrun) as (_ & Hshown & _).
      apply handleEdit_updated in Hrun as (? & ? & ? & _ & _ & _ & _ & Hupdated).
      cbn. split; [|done].
      apply list_elem_of_fmap. exists image. split; [|done].
      rewrite decide_True; [done|]. by rewrite Hupdated.
    + apply handleEdit_not_updated in Hrun as (Hshown & _). cbn.
      rewrite Hediting. cbn. split; [done|congruence].
  - destruct (modal ui) as [m|] eqn:Hm; [|by rewrite Hm].
    destruct (Modal.editingImage m); [by rewrite Hm|]. done.
Qed.


Lemma editorInSync_run ui events :
  editorInSync ui → modalCovers ui events → editorInSync (run ui events).
Proof.
  revert ui. induction events as [|ev events IH]; intros ui Hsync Hcover; [done|].
  destruct Hcover as [Hev Hrest]. cbn. apply IH; [|done].
  by apply editorInSync_step.
Qed.

(** X21. As long as no event reaches the Generate button or a card while
    the modal, which covers the page, is open, the editor and the session
    agree in every state reached: the modal is open exactly when an image
    is being edited, that image is an entry of the session, so that a
    successful edit always lands in the session, and the modal shows its
    payload, so that the next edit starts from it. *)
Theorem editor_stays_in_sync events :
  modalCovers initial events → editorInSync (run initial events).
Proof. by apply editorInSync_run. Qed.

(* ------------------------------------------------------------------- *)
(** ** [blobToBase64] *)
(* ------------------------------------------------------------------- *)

(** X22. [blobToBase64] undoes the data URI: when the reader loads the
    data URI of some data and a media type, neither holding a comma, the
    promise resolves with exactly the data, whatever the reader fires
    afterwards. *)
Theorem blobToBase64_strips_prefix data mimeType later :
  lacks comma data = true → lacks comma mimeType = true →
  blobToBase64 (ReaderLoadEnd (Some (encodeToDataUri data mimeType)) :: later)
  = Some (Resolved (Some data)).
Proof.
  intros Hdata Hmime.
  pose proof (base64DataOf_encode data mimeType Hmime Hdata) as Hsplit.
  unfold base64DataOf in Hsplit. unfold blobToBase64. by rewrite Hsplit.
Qed.

(** X23. When the string the reader loads holds no comma, [blobToBase64]
    does not fail: its promise, typed as a promise of a string, resolves
    with [undefined].  It rejects only when the reader errs first or loads
    something that is not a string. *)
Theorem blobToBase64_without_comma result later :
  lacks comma result = true →
  blobToBase64 (ReaderLoadEnd (Some result) :: later) = Some (Resolved None).
Proof. intros Hresult. unfold blobToBase64. by rewrite split_lacks. Qed.

End Program.

(* ===================================================================== *)
(** * The results on the sample data *)
(* ===================================================================== *)

Lemma sample_uuid_unique j k : Sample.uuid j = Sample.uuid k → j = k.
Proof.
  unfold Sample.uuid. intros H. apply app_inv_head in H.
  injection H as H. by apply Nat2N.inj.
Qed.

Lemma sample_menu_dishes :
  dishesOf Sample.menu = [lit "Soup"; lit "Salad"; lit "Cake"].
Proof. reflexivity. Qed.

(** The three calls settle: the second first, the first last. *)
Lemma sample_all_settle : allSettle (dishesOf Sample.menu) [1; 2; 0].
Proof.
  intros i Hi. rewrite sample_menu_dishes in Hi. cbn in Hi.
  destruct i as [|[|[|i]]]; [by repeat constructor..|lia].
Qed.

Lemma generated_session_in_menu_order_witness :
  truthy (trim Sample.menu) = true ∧
  allSettle (dishesOf Sample.menu) [1; 2; 0] ∧
  let st' := (handleGenerateImages Sample.key Sample.typeError Sample.uuid Sample.secondFails
                [1; 2; 0] Sample.world0 (Sample.start Sample.menu)).2 in
  App.loading st' = false ∧
  Forall2 madeFrom
    [(lit "Soup", lit "U291cA=="); (lit "Cake", lit "Q2FrZQ==")]
    (App.generatedImages st') ∧
  NoDup (id <$> App.generatedImages st').
Proof.
  split; [reflexivity|]. split; [exact sample_all_settle|].
  destruct (generated_session_in_menu_order Sample.key Sample.typeError Sample.uuid
              sample_uuid_unique Sample.secondFails [1; 2; 0] Sample.world0
              (Sample.start Sample.menu) eq_refl sample_all_settle)
    as (Hdone & Hmade & _ & Hnodup & _).
  split; [exact Hdone|]. split; [exact Hmade|exact Hnodup].
Defined.

Lemma batch_reports_last_failure_witness :
  truthy (trim Sample.menu) = true ∧
  allSettle (dishesOf Sample.menu) [1; 2; 0] ∧
  let st' := (handleGenerateImages Sample.key Sample.typeError Sample.uuid Sample.secondFails
                [1; 2; 0] Sample.world0 (Sample.start Sample.menu)).2 in
  Forall2 madeFrom
    [(lit "Soup", lit "U291cA=="); (lit "Cake", lit "Q2FrZQ==")]
    (App.generatedImages st') ∧
  length (App.generatedImages st') = 2 ∧
  reportedErrors st' = [failureMessage (lit "Salad")].
Proof.
  split; [reflexivity|]. split; [exact sample_all_settle|].
  destruct (batch_reports_last_failure Sample.key Sample.typeError Sample.uuid
              Sample.secondFails [1; 2; 0] Sample.world0
              (Sample.start Sample.menu) eq_refl sample_all_settle)
    as (Hmade & _ & _ & _ & _ & _ & _ & Hone & Htwo).
  split; [exact Hmade|].
  split; [exact (Htwo eq_refl eq_refl)|exact (Hone (lit "Salad") eq_refl)].
Defined.

(** C3, as the specification words it, fails: with two dishes that both
    fail, two messages are due and the [error] cell shows one, the message
    of the dish whose call settled last. *)
Lemma batch_does_not_report_every_failure :
  let st' := (handleGenerateImages Sample.key Sample.typeError Sample.uuid Sample.allFail
                [1; 0] Sample.world0
                (Sample.start (lit "Soup" ++ [LF] ++ lit "Salad"))).2 in
  failures Sample.key Sample.typeError RUSTIC_DARK Sample.allFail
    (dishesOf (lit "Soup" ++ [LF] ++ lit "Salad")) = [lit "Soup"; lit "Salad"] ∧
  reportedErrors st' = [failureMessage (lit "Soup")] ∧
  ¬ reportsEveryFailure Sample.key Sample.typeError Sample.uuid Sample.allFail [1; 0]
      Sample.world0 (Sample.start (lit "Soup" ++ [LF] ++ lit "Salad")).
Proof.
  split; [reflexivity|]. split; [reflexivity|].
  unfold reportsEveryFailure. vm_compute. discriminate.
Qed.

Lemma batch_sends_one_request_per_dish_witness :
  falsy Sample.key = false ∧
  let w' := (handleGenerateImages Sample.key Sample.typeError Sample.uuid Sample.secondFails
               [1; 2; 0] Sample.world0 (Sample.start Sample.menu)).1 in
  imagenLog w' =
    specRequest RUSTIC_DARK <$> [lit "Soup"; lit "Salad"; lit "Cake"] ∧
  length (imagenLog w') = 3.
Proof.
  split; [reflexivity|].
  destruct (batch_sends_one_request_per_dish Sample.key Sample.typeError Sample.uuid
              Sample.secondFails [1; 2; 0] Sample.world0
              (Sample.start Sample.menu) eq_refl)
    as (Hlog & Hlen & _).
  split; [exact Hlog|exact Hlen].
Defined.

Lemma empty_menu_rejected_witness :
  dishesOf Sample.blankMenu = [] ∧
  handleGenerateImages Sample.key Sample.typeError Sample.uuid Sample.secondFails [1; 2; 0]
    Sample.world0 (Sample.start Sample.blankMenu)
  = (Sample.world0,
     {| App.menuText := Sample.blankMenu;
        App.selectedStyle := RUSTIC_DARK;
        App.generatedImages := [];
        App.loading := false;
        App.error := Some (lit "Please enter your menu items.");
        App.editingImage := None |}).
Proof.
  split; [reflexivity|].
  exact (proj2 (empty_menu_rejected Sample.key Sample.typeError Sample.uuid Sample.secondFails
                  [1; 2; 0] Sample.world0 (Sample.start Sample.blankMenu) eq_refl)).
Defined.

Lemma decode_encode_roundtrip_witness :
  validPayload (lit "U291cA==") = true ∧
  validMediaType (lit "image/png") = true ∧
  decodeFromDataUri (encodeToDataUri (lit "U291cA==") (lit "image/png"))
  = Some (lit "U291cA==", lit "image/png") ∧
  decodeFromDataUri (encodeToDataUri [] (lit "image/png")) = None.
Proof.
  split; [reflexivity|]. split; [reflexivity|].
  exact (decode_encode_roundtrip (lit "U291cA==") (lit "image/png") eq_refl eq_refl).
Defined.

(** C6, as the specification words it, fails.  When the image model
    answers with empty bytes, the batch stores the data URI of the empty
    payload, and decoding it fails instead of returning the empty payload
    and [image/jpeg]; and a media type with a parameter is read back
    without it. *)
Lemma roundtrip_fails_on_stored_empty_payload :
  let st' := (handleGenerateImages Sample.key Sample.typeError Sample.uuid
                (λ _, Sample.served []) [0] Sample.world0
                (Sample.start (lit "Soup"))).2 in
  imageUrl <$> App.generatedImages st' = [encodeToDataUri [] (lit "image/jpeg")] ∧
  decodeFromDataUri (encodeToDataUri [] (lit "image/jpeg")) = None ∧
  decodeFromDataUri (encodeToDataUri [] (lit "image/jpeg"))
    ≠ Some ([], lit "image/jpeg") ∧
  decodeFromDataUri (encodeToDataUri (lit "QUJD") (lit "image/png;q=1"))
    ≠ Some (lit "QUJD", lit "image/png;q=1").
Proof. vm_compute. repeat split; discriminate. Qed.

Lemma edit_success_extends_history_witness :
  let m := Sample.editor (lit "make it brighter") in
  let gemini := Sample.edited (lit "QnJpZ2h0") in
  let newImageUrl := lit "data:image/jpeg;base64,QnJpZ2h0" in
  truthy (trim (Modal.editPrompt m)) = true ∧
  decodeFromDataUri (Modal.currentEditedImageUrl m)
    = Some (lit "U291cA==", lit "image/jpeg") ∧
  (handleEdit Sample.key Sample.soup gemini m).2 =
    Some {| id := Sample.uuid 0;
            dishName := lit "Soup";
            imageUrl := newImageUrl;
            originalPrompt := lit "Soup";
            editHistory :=
              [ {| Edit.prompt := lit "make it brighter";
                   Edit.imageUrl := newImageUrl |} ] |} ∧
  decodeFromDataUri newImageUrl = Some (lit "QnJpZ2h0", lit "image/jpeg").
Proof.
  intros m gemini newImageUrl.
  split; [reflexivity|]. split; [reflexivity|].
  destruct (edit_success_extends_history Sample.key Sample.typeError Sample.uuid Sample.soup gemini m
              (lit "U291cA==") (lit "image/jpeg")
              (editFoodImage Sample.key (lit "U291cA==") (lit "image/jpeg")
                 (lit "make it brighter") gemini).1
              (lit "QnJpZ2h0") eq_refl eq_refl eq_refl)
    as (Hrun & _ & _ & _ & _ & Hnext).
  split; [exact (f_equal snd Hrun)|exact (Hnext eq_refl eq_refl)].
Defined.

Lemma edit_failure_leaves_image_witness :
  let m := Sample.editor (lit "make it brighter") in
  let reason := lit "Failed to edit image: No edited image returned by the model." in
  truthy (trim (Modal.editPrompt m)) = true ∧
  decodeFromDataUri (Modal.currentEditedImageUrl m)
    = Some (lit "U291cA==", lit "image/jpeg") ∧
  (editFoodImage Sample.key (lit "U291cA==") (lit "image/jpeg")
     (lit "make it brighter") Sample.noImage).2 = Rejected reason ∧
  (handleEdit Sample.key Sample.soup Sample.noImage m).2 = None ∧
  (handleEdit Sample.key Sample.soup Sample.noImage m).1.2 =
    {| Modal.editPrompt := lit "make it brighter";
       Modal.editingImage := false;
       Modal.error := Some (lit "Failed to edit image: " ++ reason);
       Modal.currentEditedImageUrl := imageUrl Sample.soup |}.
Proof.
  intros m reason.
  split; [reflexivity|]. split; [reflexivity|]. split; [reflexivity|].
  destruct (edit_failure_leaves_image Sample.key Sample.typeError Sample.uuid Sample.soup
              Sample.noImage m (lit "U291cA==") (lit "image/jpeg")
              (editFoodImage Sample.key (lit "U291cA==") (lit "image/jpeg")
                 (lit "make it brighter") Sample.noImage).1
              reason eq_refl eq_refl eq_refl)
    as (Hrun & _).
  split; [exact (f_equal snd Hrun)|exact (f_equal (λ r, r.1.2) Hrun)].
Defined.

Lemma empty_edit_prompt_rejected_witness :
  let m := Sample.editor (lit "   ") in
  trim (Modal.editPrompt m) = [] ∧
  handleEdit Sample.key Sample.soup (Sample.edited (lit "QnJpZ2h0")) m =
    ([],
     {| Modal.editPrompt := lit "   ";
        Modal.editingImage := false;
        Modal.error := Some (lit "Please enter an edit prompt.");
        Modal.currentEditedImageUrl := imageUrl Sample.soup |},
     None).
Proof.
  intros m. split; [reflexivity|].
  exact (proj1 (proj2 (empty_edit_prompt_rejected Sample.key Sample.typeError Sample.uuid Sample.soup
                         (Sample.edited (lit "QnJpZ2h0")) m eq_refl))).
Defined.

Lemma original_prompt_is_generation_text_witness :
  truthy (trim Sample.menu) = true ∧
  allSettle (dishesOf Sample.menu) [1; 2; 0] ∧
  Forall2 (λ success g, originalPrompt g = success.1)
    [(lit "Soup", lit "U291cA=="); (lit "Cake", lit "Q2FrZQ==")]
    (App.generatedImages
       (handleGenerateImages Sample.key Sample.typeError Sample.uuid Sample.secondFails
          [1; 2; 0] Sample.world0 (Sample.start Sample.menu)).2).
Proof.
  split; [reflexivity|]. split; [exact sample_all_settle|].
  destruct (original_prompt_is_generation_text Sample.key Sample.typeError Sample.uuid
              sample_uuid_unique Sample.secondFails [1; 2; 0] Sample.world0
              (Sample.start Sample.menu) eq_refl sample_all_settle)
    as (Hmade & _ & _).
  exact Hmade.
Defined.

(** The edit chain of the specification, run from the first click: the
    second dish fails, the soup is opened and edited twice, the edit model
    answering with PNG parts.  The history has the two edits in order, the
    payload is the second result, identifier, label and original prompt are
    those of the generation, and the header still says [image/jpeg]. *)
Example edit_chain_example :
  let ui := run Sample.key Sample.typeError Sample.uuid (initial)
              [ TypeMenu Sample.menu;
                PickStyle RUSTIC_DARK;
                ClickGenerate Sample.secondFails [1; 2; 0];
                ClickEditPhoto 0;
                TypeEditPrompt (lit "make it brighter");
                ClickApplyEdit (Sample.edited (lit "QnJpZ2h0"));
                TypeEditPrompt (lit "add steam");
                ClickApplyEdit (Sample.edited (lit "U3RlYW0=")) ] in
  App.generatedImages (app ui) =
    [ {| id := Sample.uuid 1;
         dishName := lit "Soup";
         imageUrl := lit "data:image/jpeg;base64,U3RlYW0=";
         originalPrompt := lit "Soup";
         editHistory :=
           [ {| Edit.prompt := lit "make it brighter";
                Edit.imageUrl := lit "data:image/jpeg;base64,QnJpZ2h0" |};
             {| Edit.prompt := lit "add steam";
                Edit.imageUrl := lit "data:image/jpeg;base64,U3RlYW0=" |} ] |};
      {| id := Sample.uuid 0;
         dishName := lit "Cake";
         imageUrl := lit "data:image/jpeg;base64,Q2FrZQ==";
         originalPrompt := lit "Cake";
         editHistory := [] |} ] ∧
  App.editingImage (app ui) = App.generatedImages (app ui) !! 0 ∧
  (λ request, GenAI.parts (GenAI.contents request)) <$> geminiLog (world ui) =
    [ Some [ {| GenAI.inlineData :=
                  Some {| GenAI.data := Some (lit "U291cA==");
                          GenAI.mimeType := Some (lit "image/jpeg") |};
                GenAI.text := None |};
             {| GenAI.inlineData := None;
                GenAI.text := Some (lit "make it brighter") |} ];
      Some [ {| GenAI.inlineData :=
                  Some {| GenAI.data := Some (lit "QnJpZ2h0");
                          GenAI.mimeType := Some (lit "image/jpeg") |};
                GenAI.text := None |};
             {| GenAI.inlineData := None;
                GenAI.text := Some (lit "add steam") |} ] ].
Proof. vm_compute. done. Qed.

(** A failed edit in the middle of the chain changes nothing but the
    message of the modal. *)
Example edit_failure_example :
  let before := run Sample.key Sample.typeError Sample.uuid initial
              [ TypeMenu Sample.menu;
                ClickGenerate Sample.secondFails [1; 2; 0];
                ClickEditPhoto 0;
                TypeEditPrompt (lit "make it brighter") ] in
  let after := step Sample.key Sample.typeError Sample.uuid before (ClickApplyEdit Sample.noImage) in
  app after = app before ∧
  (Modal.currentEditedImageUrl <$> modal after)
    = (Modal.currentEditedImageUrl <$> modal before) ∧
  (Modal.error <$> modal after) =
    Some (Some (lit "Failed to edit image: Failed to edit image: No edited image returned by the model.")).
Proof. vm_compute. done. Qed.

(* ===================================================================== *)
(** * The further results on the sample data *)
(* ===================================================================== *)

Lemma sample_salad_is_a_dish : lit "Salad" ∈ dishesOf Sample.menu.
Proof. rewrite sample_menu_dishes. by repeat constructor. Qed.

Lemma dishes_are_clean_lines_witness :
  lit "Salad" ∈ dishesOf Sample.menu ∧
  lacks LF (lit "Salad") = true ∧ trim (lit "Salad") = lit "Salad".
Proof.
  split; [exact sample_salad_is_a_dish|].
  destruct (dishes_are_clean_lines Sample.menu (lit "Salad") sample_salad_is_a_dish)
    as (_ & Hline & Htrim & _).
  split; [exact Hline|exact Htrim].
Defined.

Lemma decode_encode_any_witness :
  validMediaType (lit "image/jpeg") = true ∧
  decodeFromDataUri (encodeToDataUri [] (lit "image/jpeg")) = None ∧
  decodeFromDataUri (encodeToDataUri (lit "QUJD,REVG") (lit "image/jpeg"))
    = Some (lit "QUJD", lit "image/jpeg").
Proof.
  split; [reflexivity|]. split.
  - exact (decode_encode_any [] (lit "image/jpeg") eq_refl).
  - exact (decode_encode_any (lit "QUJD,REVG") (lit "image/jpeg") eq_refl).
Defined.

Lemma decoded_parts_are_clean_witness :
  decodeFromDataUri (imageUrl Sample.soup) = Some (lit "U291cA==", lit "image/jpeg") ∧
  lacks comma (lit "U291cA==") = true ∧
  decodeFromDataUri (encodeToDataUri (lit "U291cA==") (lit "image/jpeg"))
    = Some (lit "U291cA==", lit "image/jpeg").
Proof.
  split; [reflexivity|].
  destruct (decoded_parts_are_clean (imageUrl Sample.soup) (lit "U291cA==")
              (lit "image/jpeg") eq_refl)
    as (_ & Hcomma & _ & _ & _ & Hagain).
  split; [exact Hcomma|exact (Hagain eq_refl)].
Defined.

Lemma generateFoodImage_failure_reasons_witness :
  (generateFoodImage Sample.key Sample.typeError (lit "Salad") RUSTIC_DARK
     (Rejected (lit "quota exceeded"))).2
    = Rejected (lit "Failed to generate image: quota exceeded") ∧
  (generateFoodImage Sample.key Sample.typeError (lit "Salad") RUSTIC_DARK
     (Rejected (lit "quota exceeded"))).1
    = [specRequest RUSTIC_DARK (lit "Salad")].
Proof.
  split; [reflexivity|].
  destruct (generateFoodImage_failure_reasons Sample.key Sample.typeError (lit "Salad") RUSTIC_DARK
              (Rejected (lit "quota exceeded"))
              (lit "Failed to generate image: quota exceeded") eq_refl)
    as [(Hkey & _)|(_ & Hsent & _)].
  - discriminate Hkey.
  - exact Hsent.
Defined.

Lemma batch_without_key_witness :
  falsy None = true ∧
  truthy (trim Sample.menu) = true ∧
  allSettle (dishesOf Sample.menu) [1; 2; 0] ∧
  let r := handleGenerateImages None Sample.typeError Sample.uuid Sample.secondFails [1; 2; 0]
             Sample.world0 (Sample.start Sample.menu) in
  imagenLog r.1 = [] ∧ App.generatedImages r.2 = [] ∧ App.loading r.2 = false.
Proof.
  split; [reflexivity|]. split; [reflexivity|]. split; [exact sample_all_settle|].
  destruct (batch_without_key None Sample.typeError Sample.uuid Sample.secondFails [1; 2; 0]
              Sample.world0 (Sample.start Sample.menu)
              eq_refl eq_refl sample_all_settle)
    as (Hlog & _ & Hsession & Hdone & _).
  split; [exact Hlog|]. split; [exact Hsession|exact Hdone].
Defined.

Lemma edit_without_key_witness :
  let m := Sample.editor (lit "make it brighter") in
  falsy None = true ∧
  truthy (trim (Modal.editPrompt m)) = true ∧
  decodeFromDataUri (Modal.currentEditedImageUrl m)
    = Some (lit "U291cA==", lit "image/jpeg") ∧
  handleEdit None Sample.soup (Sample.edited (lit "QnJpZ2h0")) m =
    ([],
     {| Modal.editPrompt := lit "make it brighter";
        Modal.editingImage := false;
        Modal.error :=
          Some (lit "Failed to edit image: API Key is missing. Cannot edit image.");
        Modal.currentEditedImageUrl := imageUrl Sample.soup |},
     None).
Proof.
  intros m. split; [reflexivity|]. split; [reflexivity|]. split; [reflexivity|].
  exact (edit_without_key None Sample.soup (Sample.edited (lit "QnJpZ2h0")) m
           (lit "U291cA==") (lit "image/jpeg") eq_refl eq_refl eq_refl).
Defined.

Lemma edit_of_undecodable_payload_witness :
  truthy (trim (Modal.editPrompt Sample.brokenEditor)) = true ∧
  lacks comma (Modal.currentEditedImageUrl Sample.brokenEditor) = true ∧
  (handleEdit Sample.key Sample.soup (Sample.edited (lit "QnJpZ2h0"))
     Sample.brokenEditor).1.1 = [] ∧
  (handleEdit Sample.key Sample.soup (Sample.edited (lit "QnJpZ2h0"))
     Sample.brokenEditor).2 = None.
Proof.
  split; [reflexivity|]. split; [reflexivity|].
  pose proof (edit_of_undecodable_payload Sample.key Sample.soup
                (Sample.edited (lit "QnJpZ2h0")) Sample.brokenEditor
                eq_refl eq_refl) as Hrun.
  split; [exact (f_equal (λ r, r.1.1) Hrun)|exact (f_equal snd Hrun)].
Defined.

Lemma sample_shelf_ids : NoDup (id <$> App.generatedImages Sample.shelf).
Proof.
  cbn. apply NoDup_cons. split; [|apply NoDup_singleton].
  intros Hin%list_elem_of_singleton. by apply sample_uuid_unique in Hin.
Qed.

Lemma handleImageEdited_updates_in_place_witness :
  NoDup (id <$> App.generatedImages Sample.shelf) ∧
  App.generatedImages Sample.shelf !! 0 = Some Sample.soup ∧
  id Sample.soup = id Sample.brighterSoup ∧
  App.generatedImages (handleImageEdited Sample.brighterSoup Sample.shelf)
    = [Sample.brighterSoup; Sample.cake].
Proof.
  split; [exact sample_shelf_ids|]. split; [reflexivity|]. split; [reflexivity|].
  exact (proj1 (handleImageEdited_updates_in_place Sample.brighterSoup Sample.shelf
                  0 Sample.soup sample_shelf_ids eq_refl eq_refl)).
Defined.

Lemma sample_stray_id : id Sample.stray ∉ (id <$> App.generatedImages Sample.shelf).
Proof.
  cbn. intros [Hin|[Hin|Hin]%elem_of_cons]%elem_of_cons.
  - by apply sample_uuid_unique in Hin.
  - by apply sample_uuid_unique in Hin.
  - by apply elem_of_nil in Hin.
Qed.

Lemma handleImageEdited_unknown_id_witness :
  (id Sample.stray ∉ (id <$> App.generatedImages Sample.shelf)) ∧
  App.generatedImages (handleImageEdited Sample.stray Sample.shelf)
    = [Sample.soup; Sample.cake] ∧
  App.editingImage (handleImageEdited Sample.stray Sample.shelf) = Some Sample.stray.
Proof.
  split; [exact sample_stray_id|].
  exact (handleImageEdited_unknown_id Sample.stray Sample.shelf sample_stray_id).
Defined.

Lemma blobToBase64_strips_prefix_witness :
  lacks comma (lit "U291cA==") = true ∧ lacks comma (lit "image/png") = true ∧
  blobToBase64 [ReaderLoadEnd (Some (lit "data:image/png;base64,U291cA=="))]
    = Some (Resolved (Some (lit "U291cA=="))).
Proof.
  split; [reflexivity|]. split; [reflexivity|].
  exact (blobToBase64_strips_prefix (lit "U291cA==") (lit "image/png") []
           eq_refl eq_refl).
Defined.

Lemma blobToBase64_without_comma_witness :
  lacks comma (lit "data:") = true ∧
  blobToBase64 [ReaderLoadEnd (Some (lit "data:"))] = Some (Resolved None).
Proof.
  split; [reflexivity|].
  exact (blobToBase64_without_comma (lit "data:") [] eq_refl).
Defined.

(** The page after the sample batch, the soup opened and edited once. *)
Lemma sample_edited_once :
  run Sample.key Sample.typeError Sample.uuid initial
    [ TypeMenu Sample.menu;
      ClickGenerate Sample.secondFails [1; 2; 0];
      ClickEditPhoto 0;
      TypeEditPrompt (lit "make it brighter");
      ClickApplyEdit (Sample.edited (lit "QnJpZ2h0")) ]
  = {| world :=
         {| uuidCalls := 2;
            imagenLog := specRequest BRIGHT_MODERN <$> [lit "Soup"; lit "Salad"; lit "Cake"];
            geminiLog := [editRequest (lit "U291cA==") (lit "image/jpeg")
                            (lit "make it brighter")] |};
       app :=
         {| App.menuText := Sample.menu;
            App.selectedStyle := BRIGHT_MODERN;
            App.generatedImages :=
              [ {| id := Sample.uuid 1;
                   dishName := lit "Soup";
                   imageUrl := lit "data:image/jpeg;base64,QnJpZ2h0";
                   originalPrompt := lit "Soup";
                   editHistory :=
                     [ {| Edit.prompt := lit "make it brighter";
                          Edit.imageUrl := lit "data:image/jpeg;base64,QnJpZ2h0" |} ] |};
                {| id := Sample.uuid 0;
                   dishName := lit "Cake";
                   imageUrl := lit "data:image/jpeg;base64,Q2FrZQ==";
                   originalPrompt := lit "Cake";
                   editHistory := [] |} ];
            App.loading := false;
            App.error := Some (failureMessage (lit "Salad"));
            App.editingImage :=
              Some {| id := Sample.uuid 1;
                      dishName := lit "Soup";
                      imageUrl := lit "data:image/jpeg;base64,QnJpZ2h0";
                      originalPrompt := lit "Soup";
                      editHistory :=
                        [ {| Edit.prompt := lit "make it brighter";
                             Edit.imageUrl := lit "data:image/jpeg;base64,QnJpZ2h0" |} ] |} |};
       modal :=
         Some {| Modal.editPrompt := [];
                 Modal.editingImage := false;
                 Modal.error := None;
                 Modal.currentEditedImageUrl := lit "data:image/jpeg;base64,QnJpZ2h0" |} |}.
Proof. vm_compute. reflexivity. Qed.

Lemma sample_edited_soup_held :
  {| id := Sample.uuid 1;
     dishName := lit "Soup";
     imageUrl := lit "data:image/jpeg;base64,QnJpZ2h0";
     originalPrompt := lit "Soup";
     editHistory :=
       [ {| Edit.prompt := lit "make it brighter";
            Edit.imageUrl := lit "data:image/jpeg;base64,QnJpZ2h0" |} ] |}
  ∈ images (run Sample.key Sample.typeError Sample.uuid initial
              [ TypeMenu Sample.menu;
                ClickGenerate Sample.secondFails [1; 2; 0];
                ClickEditPhoto 0;
                TypeEditPrompt (lit "make it brighter");
                ClickApplyEdit (Sample.edited (lit "QnJpZ2h0")) ]).
Proof. rewrite sample_edited_once. left. Qed.

Lemma payload_is_always_last_edit_witness :
  let ui := run Sample.key Sample.typeError Sample.uuid initial
              [ TypeMenu Sample.menu;
                ClickGenerate Sample.secondFails [1; 2; 0];
                ClickEditPhoto 0;
                TypeEditPrompt (lit "make it brighter");
                ClickApplyEdit (Sample.edited (lit "QnJpZ2h0")) ] in
  let g := {| id := Sample.uuid 1;
              dishName := lit "Soup";
              imageUrl := lit "data:image/jpeg;base64,QnJpZ2h0";
              originalPrompt := lit "Soup";
              editHistory :=
                [ {| Edit.prompt := lit "make it brighter";
                     Edit.imageUrl := lit "data:image/jpeg;base64,QnJpZ2h0" |} ] |} in
  g ∈ images ui ∧ payloadIsLastEdit g.
Proof.
  intros ui g. split; [exact sample_edited_soup_held|].
  exact (payload_is_always_last_edit Sample.key Sample.typeError Sample.uuid _ g sample_edited_soup_held).
Defined.

Lemma label_is_prompt_and_no_blank_edit_witness :
  let ui := run Sample.key Sample.typeError Sample.uuid initial
              [ TypeMenu Sample.menu;
                ClickGenerate Sample.secondFails [1; 2; 0];
                ClickEditPhoto 0;
                TypeEditPrompt (lit "make it brighter");
                ClickApplyEdit (Sample.edited (lit "QnJpZ2h0")) ] in
  let g := {| id := Sample.uuid 1;
              dishName := lit "Soup";
              imageUrl := lit "data:image/jpeg;base64,QnJpZ2h0";
              originalPrompt := lit "Soup";
              editHistory :=
                [ {| Edit.prompt := lit "make it brighter";
                     Edit.imageUrl := lit "data:image/jpeg;base64,QnJpZ2h0" |} ] |} in
  g ∈ images ui ∧ originalPrompt g = dishName g ∧ promptsNotBlank g.
Proof.
  intros ui g. split; [exact sample_edited_soup_held|].
  exact (label_is_prompt_and_no_blank_edit Sample.key Sample.typeError Sample.uuid _ g
           sample_edited_soup_held).
Defined.

Lemma identifiers_are_unique_always_witness :
  (∀ j k, Sample.uuid j = Sample.uuid k → j = k) ∧
  NoDup (id <$> App.generatedImages
           (app (run Sample.key Sample.typeError Sample.uuid initial
                   [ TypeMenu Sample.menu;
                     ClickGenerate Sample.secondFails [1; 2; 0];
                     ClickEditPhoto 0;
                     TypeEditPrompt (lit "make it brighter");
                     ClickApplyEdit (Sample.edited (lit "QnJpZ2h0")) ]))).
Proof.
  split; [exact sample_uuid_unique|].
  exact (proj1 (identifiers_are_unique_always Sample.key Sample.typeError Sample.uuid
                  sample_uuid_unique
                  [ TypeMenu Sample.menu;
                    ClickGenerate Sample.secondFails [1; 2; 0];
                    ClickEditPhoto 0;
                    TypeEditPrompt (lit "make it brighter");
                    ClickApplyEdit (Sample.edited (lit "QnJpZ2h0")) ])).
Defined.

(** The soup before and after a second edit. *)
Lemma sample_second_edit :
  let ui := run Sample.key Sample.typeError Sample.uuid initial
              [ TypeMenu Sample.menu;
                ClickGenerate Sample.secondFails [1; 2; 0];
                ClickEditPhoto 0;
                TypeEditPrompt (lit "make it brighter");
                ClickApplyEdit (Sample.edited (lit "QnJpZ2h0"));
                TypeEditPrompt (lit "add steam") ] in
  let before :=
    {| id := Sample.uuid 1;
       dishName := lit "Soup";
       imageUrl := lit "data:image/jpeg;base64,QnJpZ2h0";
       originalPrompt := lit "Soup";
       editHistory :=
         [ {| Edit.prompt := lit "make it brighter";
              Edit.imageUrl := lit "data:image/jpeg;base64,QnJpZ2h0" |} ] |} in
  let after :=
    {| id := Sample.uuid 1;
       dishName := lit "Soup";
       imageUrl := lit "data:image/jpeg;base64,U3RlYW0=";
       originalPrompt := lit "Soup";
       editHistory :=
         [ {| Edit.prompt := lit "make it brighter";
              Edit.imageUrl := lit "data:image/jpeg;base64,QnJpZ2h0" |};
           {| Edit.prompt := lit "add steam";
              Edit.imageUrl := lit "data:image/jpeg;base64,U3RlYW0=" |} ] |} in
  before ∈ App.generatedImages (app ui) ∧
  after ∈ App.generatedImages
            (app (step Sample.key Sample.typeError Sample.uuid ui
                    (ClickApplyEdit (Sample.edited (lit "U3RlYW0="))))).
Proof. vm_compute. split; left. Qed.

Lemma history_is_append_only_witness :
  let ui := run Sample.key Sample.typeError Sample.uuid initial
              [ TypeMenu Sample.menu;
                ClickGenerate Sample.secondFails [1; 2; 0];
                ClickEditPhoto 0;
                TypeEditPrompt (lit "make it brighter");
                ClickApplyEdit (Sample.edited (lit "QnJpZ2h0"));
                TypeEditPrompt (lit "add steam") ] in
  let before :=
    {| id := Sample.uuid 1;
       dishName := lit "Soup";
       imageUrl := lit "data:image/jpeg;base64,QnJpZ2h0";
       originalPrompt := lit "Soup";
       editHistory :=
         [ {| Edit.prompt := lit "make it brighter";
              Edit.imageUrl := lit "data:image/jpeg;base64,QnJpZ2h0" |} ] |} in
  let after :=
    {| id := Sample.uuid 1;
       dishName := lit "Soup";
       imageUrl := lit "data:image/jpeg;base64,U3RlYW0=";
       originalPrompt := lit "Soup";
       editHistory :=
         [ {| Edit.prompt := lit "make it brighter";
              Edit.imageUrl := lit "data:image/jpeg;base64,QnJpZ2h0" |};
           {| Edit.prompt := lit "add steam";
              Edit.imageUrl := lit "data:image/jpeg;base64,U3RlYW0=" |} ] |} in
  (∀ j k, Sample.uuid j = Sample.uuid k → j = k) ∧
  before ∈ App.generatedImages (app ui) ∧
  after ∈ App.generatedImages
            (app (step Sample.key Sample.typeError Sample.uuid ui
                    (ClickApplyEdit (Sample.edited (lit "U3RlYW0="))))) ∧
  id after = id before ∧
  (editHistory after = editHistory before ∨
   ∃ e, editHistory after = editHistory before ++ [e] ∧ imageUrl after = Edit.imageUrl e).
Proof.
  intros ui before after.
  destruct sample_second_edit as [Hbefore Hafter].
  split; [exact sample_uuid_unique|]. split; [exact Hbefore|].
  split; [exact Hafter|]. split; [reflexivity|].
  exact (proj2 (history_is_append_only Sample.key Sample.typeError Sample.uuid sample_uuid_unique
                  _ (ClickApplyEdit (Sample.edited (lit "U3RlYW0=")))
                  before after Hbefore Hafter eq_refl)).
Defined.

Lemma sample_first_call_hangs :
  0 < length (dishesOf Sample.menu) ∧ 0 ∉ [1; 2].
Proof.
  rewrite sample_menu_dishes. split; [cbn; lia|].
  intros [Hin|[Hin|Hin]%elem_of_cons]%elem_of_cons; try done.
  by apply elem_of_nil in Hin.
Qed.

Lemma hanging_call_blocks_the_page_witness :
  let ui := run Sample.key Sample.typeError Sample.uuid initial [TypeMenu Sample.menu] in
  let ui' := run Sample.key Sample.typeError Sample.uuid
               (step Sample.key Sample.typeError Sample.uuid ui
                  (ClickGenerate Sample.secondFails [1; 2]))
               [ TypeMenu (lit "Soup");
                 ClickGenerate Sample.secondFails [0];
                 ClickEditPhoto 0;
                 ClickClose ] in
  App.loading (app ui) = false ∧
  truthy (trim (App.menuText (app ui))) = true ∧
  0 < length (dishesOf (App.menuText (app ui))) ∧
  (0 ∉ [1; 2]) ∧
  App.loading (app ui') = true ∧ App.generatedImages (app ui') = [].
Proof.
  intros ui ui'. destruct sample_first_call_hangs as [Hdish Hnever].
  split; [reflexivity|]. split; [reflexivity|]. split; [exact Hdish|].
  split; [exact Hnever|].
  exact (hanging_call_blocks_the_page Sample.key Sample.typeError Sample.uuid ui Sample.secondFails
           [1; 2] 0
           [ TypeMenu (lit "Soup");
             ClickGenerate Sample.secondFails [0];
             ClickEditPhoto 0;
             ClickClose ]
           eq_refl eq_refl Hdish Hnever).
Defined.

Lemma sample_modal_covers :
  modalCovers Sample.key Sample.typeError Sample.uuid initial
    [ TypeMenu Sample.menu;
      ClickGenerate Sample.secondFails [1; 2; 0];
      ClickEditPhoto 0;
      TypeEditPrompt (lit "make it brighter");
      ClickApplyEdit (Sample.edited (lit "QnJpZ2h0")) ].
Proof.
  vm_compute. repeat split; try reflexivity; by intros [? [=]].
Qed.

Lemma editor_stays_in_sync_witness :
  let events :=
    [ TypeMenu Sample.menu;
      ClickGenerate Sample.secondFails [1; 2; 0];
      ClickEditPhoto 0;
      TypeEditPrompt (lit "make it brighter");
      ClickApplyEdit (Sample.edited (lit "QnJpZ2h0")) ] in
  modalCovers Sample.key Sample.typeError Sample.uuid initial events ∧
  editorInSync (run Sample.key Sample.typeError Sample.uuid initial events).
Proof.
  intros events. split; [exact sample_modal_covers|].
  exact (editor_stays_in_sync Sample.key Sample.typeError Sample.uuid events sample_modal_covers).
Defined.

(** Why the modal has to be in the way: a card reached while the modal is
    open changes the image being edited and not what the modal shows, and
    the next edit writes the soup, edited, into the entry of the cake. *)
Example editor_out_of_sync_example :
  let ui := run Sample.key Sample.typeError Sample.uuid initial
              [ TypeMenu Sample.menu;
                ClickGenerate Sample.secondFails [1; 2; 0];
                ClickEditPhoto 0;
                ClickEditPhoto 1;
                TypeEditPrompt (lit "add steam");
                ClickApplyEdit (Sample.edited (lit "U3RlYW0=")) ] in
  (λ request, GenAI.parts (GenAI.contents request)) <$> geminiLog (world ui) =
    [ Some [ {| GenAI.inlineData :=
                  Some {| GenAI.data := Some (lit "U291cA==");
                          GenAI.mimeType := Some (lit "image/jpeg") |};
                GenAI.text := None |};
             {| GenAI.inlineData := None;
                GenAI.text := Some (lit "add steam") |} ] ] ∧
  (λ g, (dishName g, imageUrl g)) <$> App.generatedImages (app ui) =
    [ (lit "Soup", lit "data:image/jpeg;base64,U291cA==");
      (lit "Cake", lit "data:image/jpeg;base64,U3RlYW0=") ].
Proof. vm_compute. done. Qed.

(** An image without bytes: the call succeeds with [undefined], and the
    payload stored spells it out. *)
Example undefined_bytes_example :
  let bare := λ _ : nat,
    Fulfilled {| GenAI.generatedImages :=
                   Some [ {| GenAI.image := Some {| GenAI.imageBytes := None |} |} ] |} in
  let noImage := λ _ : nat,
    Fulfilled {| GenAI.generatedImages := Some [ {| GenAI.image := None |} ] |} in
  imageUrl <$> App.generatedImages
    (handleGenerateImages Sample.key Sample.typeError Sample.uuid bare [0]
       Sample.world0 (Sample.start (lit "Soup"))).2
    = [lit "data:image/jpeg;base64,undefined"] ∧
  (generateFoodImage Sample.key Sample.typeError (lit "Soup") RUSTIC_DARK (noImage 0)).2
    = Rejected (lit "Failed to generate image: Cannot read properties of undefined (reading 'imageBytes')").
Proof. vm_compute. done. Qed.
